(** * pydantic-gitlab: the parallel specification, the entity contract and
      the reference engine

    The development follows the layout of the package:

    - [Py]        : the Python values that reach the models, exceptions and
                    f-string messages;
    - [Parallel]  : [src/pydantic_gitlab/parallel.py];
    - [Entity]    : the base entity contract (parse, serialize, extension
                    fields);
    - [Coercion]  : the scalar-or-list normalisation rule;
    - [Cache], [Job] : the cache key and the job as entities;
    - [Reference] : the reference tag, the placeholder mode and the eager
                    resolution walk;
    - [ParallelShapes] : what the validators of parallel.py let pass;
    - [Normalize] : [normalize_yaml_data] of the round-trip tests.

    The modules ending in [Facts] hold the properties, in the same order. *)

From Stdlib Require Import ZArith.
From stdpp Require Import gmap strings list fin_maps.

Set Warnings "-register-all".
Open Scope string_scope.
Open Scope Z_scope.

(** ** Results of fallible calls *)

Inductive result (E A : Type) : Type :=
| Ok (a : A)
| Err (e : E).
Arguments Ok {E A} a.
Arguments Err {E A} e.

Definition is_ok {E A} (r : result E A) : bool :=
  match r with Ok _ => true | Err _ => false end.

Definition result_map {E A B} (f : A -> B) (r : result E A) : result E B :=
  match r with Ok a => Ok (f a) | Err e => Err e end.

(** ** Python values *)

Module Py.

(** The values a loaded document is made of.  Mapping keys are strings, as
    in [Dict[str, Any]].  A float carries its IEEE-754 bit pattern; no model
    below looks inside it. *)
Inductive PyVal : Type :=
| PyNone
| PyBool (b : bool)
| PyInt (n : Z)
| PyFloat (bits : Z)
| PyStr (s : string)
| PyList (items : list PyVal)
| PyDict (entries : gmap string PyVal).

(** [isinstance(value, int)]: [bool] is a subclass of [int]. *)
Definition isinstance_int (value : PyVal) : bool :=
  match value with PyInt _ | PyBool _ => true | _ => false end.

Definition isinstance_dict (value : PyVal) : bool :=
  match value with PyDict _ => true | _ => false end.

Definition isinstance_str (value : PyVal) : bool :=
  match value with PyStr _ => true | _ => false end.

Definition isinstance_list (value : PyVal) : bool :=
  match value with PyList _ => true | _ => false end.

(** The integer an [int] instance compares as ([True] is 1, [False] is 0). *)
Definition int_value (value : PyVal) : option Z :=
  match value with
  | PyInt n => Some n
  | PyBool b => Some (if b then 1 else 0)
  | _ => None
  end.

(** An f-string: literal text and interpolated values, in order. *)
Inductive fpart : Type :=
| Lit (text : string)
| Fmt (value : PyVal).

Definition fstring : Type := list fpart.

(** [str(value)] for the scalars whose rendering is plain; containers and
    floats are not rendered here. *)
Definition digit_string (d : Z) : string :=
  String (Ascii.ascii_of_nat (48 + Z.to_nat d)) EmptyString.

Fixpoint decimal_digits (fuel : nat) (n : Z) : string :=
  match fuel with
  | O => ""
  | S fuel' =>
      if n <? 10 then digit_string n
      else decimal_digits fuel' (n / 10) +:+ digit_string (n mod 10)
  end.

Definition str_of_int (n : Z) : string :=
  if n <? 0 then "-" +:+ decimal_digits (S (Z.to_nat (Z.log2 (- n)))) (- n)
  else decimal_digits (S (Z.to_nat (Z.log2 n))) n.

Definition py_str (value : PyVal) : option string :=
  match value with
  | PyNone => Some "None"
  | PyBool true => Some "True"
  | PyBool false => Some "False"
  | PyInt n => Some (str_of_int n)
  | PyStr s => Some s
  | _ => None
  end.

Fixpoint render (msg : fstring) : option string :=
  match msg with
  | [] => Some ""
  | Lit text :: rest => (fun r => text +:+ r) <$> render rest
  | Fmt value :: rest =>
      match py_str value, render rest with
      | Some s, Some r => Some (s +:+ r)
      | _, _ => None
      end
  end.

(** The text the code itself wrote into a message. *)
Fixpoint literal_text (msg : fstring) : string :=
  match msg with
  | [] => ""
  | Lit text :: rest => text +:+ literal_text rest
  | Fmt _ :: rest => literal_text rest
  end.

(** A step of the location of a validation error: a field name, a
    mapping key or a union branch label, or an index into a list. *)
Inductive loc_item : Type :=
| LName (name : string)
| LIndex (i : Z).

(** One entry of a validation error: where and what.  A type entry
    carries the whole location and the kind the library expected there. *)
Inductive line_error : Type :=
| Missing (field : string)
| TypeLine (loc : list loc_item) (expected : string)
| ValueErr (field : string) (msg : fstring).

Inductive PyError : Type :=
| ValueError (msg : fstring)
| ValidationError (model : string) (errors : list line_error).

(** Substring search, used to read messages. *)
Fixpoint is_prefix (p s : string) : bool :=
  match p, s with
  | EmptyString, _ => true
  | String a p', String b s' => bool_decide (a = b) && is_prefix p' s'
  | String _ _, EmptyString => false
  end.

Fixpoint contains (word s : string) : bool :=
  is_prefix word s ||
  match s with
  | EmptyString => false
  | String _ s' => contains word s'
  end.

Definition lower_ascii (a : Ascii.ascii) : Ascii.ascii :=
  let n := Ascii.nat_of_ascii a in
  if ((65 <=? n) && (n <=? 90))%nat then Ascii.ascii_of_nat (n + 32) else a.

Fixpoint lower (s : string) : string :=
  match s with
  | EmptyString => EmptyString
  | String a s' => String (lower_ascii a) (lower s')
  end.

Definition mentions (word s : string) : bool := contains word (lower s).

End Py.
Import Py.

(** ** parallel.py *)

Module Parallel.

(** Modelled from the spec: [GitLabCIBaseModel] (base.py) is the common
    base of the models; an entity stores every key that is not a declared
    field as an extension field, so construction keeps the other keyword
    arguments in [model_extra]. *)
Record GitLabCIParallelObject : Type := {
  matrix : list PyVal;
  model_extra : gmap string PyVal
}.

Record GitLabCIParallelMatrix : Type := {
  pm_matrix : list PyVal;
  pm_model_extra : gmap string PyVal
}.

(** The declared type of the field, [List[Dict[str, Union[str, List[str]]]]],
    as the validation library checks it before the field validator runs. *)
Inductive annotation : Type :=
| TStr
| TList (item : annotation)
| TDict (value : annotation)
| TUnion (left right : annotation).

Fixpoint conforms (t : annotation) (v : PyVal) : bool :=
  match t with
  | TStr => isinstance_str v
  | TList item =>
      match v with PyList l => forallb (conforms item) l | _ => false end
  | TDict value =>
      match v with
      | PyDict m => forallb (fun kv => conforms value kv.2) (map_to_list m)
      | _ => false
      end
  | TUnion l r => conforms l v || conforms r v
  end.

(** The label the library gives a union branch in an error location. *)
Fixpoint label (t : annotation) : string :=
  match t with
  | TStr => "str"
  | TList item => "list[" +:+ label item +:+ "]"
  | TDict value => "dict[str," +:+ label value +:+ "]"
  | TUnion l r => "union[" +:+ label l +:+ "," +:+ label r +:+ "]"
  end.

Fixpoint indexed {A} (i : Z) (l : list A) : list (Z * A) :=
  match l with
  | [] => []
  | x :: rest => (i, x) :: indexed (i + 1) rest
  end.

(** The entries the library reports for a value checked against a declared
    type: one for a value of the wrong kind, those of every failing item of a
    list and of every failing value of a mapping, each under its index or
    key, and, where no branch of a union accepts the value, those of every
    branch under the branch's label.  The values of one mapping are visited
    in the order of the finite map. *)
Fixpoint type_lines (t : annotation) (loc : list loc_item) (v : PyVal)
  : list line_error :=
  match t with
  | TStr => if isinstance_str v then [] else [TypeLine loc "string_type"]
  | TList item =>
      match v with
      | PyList l =>
          flat_map (fun ix => type_lines item (loc ++ [LIndex ix.1]) ix.2)
            (indexed 0 l)
      | _ => [TypeLine loc "list_type"]
      end
  | TDict value =>
      match v with
      | PyDict m =>
          flat_map (fun kv => type_lines value (loc ++ [LName kv.1]) kv.2)
            (map_to_list m)
      | _ => [TypeLine loc "dict_type"]
      end
  | TUnion l r =>
      if conforms l v || conforms r v then []
      else type_lines l (loc ++ [LName (label l)]) v
           ++ type_lines r (loc ++ [LName (label r)]) v
  end.

Definition matrix_entry_annotation : annotation :=
  TDict (TUnion TStr (TList TStr)).

Definition matrix_annotation : annotation := TList matrix_entry_annotation.

(** The list behind a value of the declared type. *)
Definition as_matrix (v : PyVal) : option (list PyVal) :=
  match v with
  | PyList l => if conforms matrix_annotation v then Some l else None
  | _ => None
  end.

Definition dict_is_empty (v : PyVal) : bool :=
  match v with PyDict m => bool_decide (m = ∅) | _ => false end.

(** [GitLabCIParallelMatrix.validate_matrix]: the loop over
    [enumerate(v)], from index [idx]. *)
Fixpoint check_entries (idx : Z) (v : list PyVal) : option fstring :=
  match v with
  | [] => None
  | entry :: rest =>
      if negb (isinstance_dict entry) then
        Some [Lit "Matrix entry "; Fmt (PyInt idx); Lit " must be a dictionary"]
      else if dict_is_empty entry then
        Some [Lit "Matrix entry "; Fmt (PyInt idx); Lit " cannot be empty"]
      else check_entries (idx + 1) rest
  end.

Definition GitLabCIParallelMatrix_validate_matrix (v : list PyVal)
  : result fstring (list PyVal) :=
  match v with
  | [] => Err [Lit "Matrix cannot be empty"]
  | _ =>
      match check_entries 0 v with
      | Some msg => Err msg
      | None => Ok v
      end
  end.

(** [GitLabCIParallelObject.validate_matrix]. *)
Definition GitLabCIParallelObject_validate_matrix (v : list PyVal)
  : result fstring (list PyVal) :=
  match v with
  | [] => Err [Lit "Matrix cannot be empty"]
  | _ => Ok v
  end.

(** Construction, as the validation library runs it for a model whose one
    declared field, [matrix], is required: the field is looked up, checked
    against its declared type (a failure reports the type entries, located
    under the field), then handed to the field validator; the other keyword
    arguments become the extension fields. *)
Definition construct (model : string)
    (validator : list PyVal -> result fstring (list PyVal))
    (kwargs : gmap string PyVal)
  : result PyError (list PyVal * gmap string PyVal) :=
  match kwargs !! "matrix" with
  | None => Err (ValidationError model [Missing "matrix"])
  | Some v =>
      match as_matrix v with
      | None =>
          Err (ValidationError model
                 (type_lines matrix_annotation [LName "matrix"] v))
      | Some l =>
          match validator l with
          | Err msg => Err (ValidationError model [ValueErr "matrix" msg])
          | Ok l' => Ok (l', delete "matrix" kwargs)
          end
      end
  end.

Definition GitLabCIParallelObject_init (kwargs : gmap string PyVal)
  : result PyError GitLabCIParallelObject :=
  result_map (fun p => {| matrix := p.1; model_extra := p.2 |})
    (construct "GitLabCIParallelObject"
       GitLabCIParallelObject_validate_matrix kwargs).

Definition GitLabCIParallelMatrix_init (kwargs : gmap string PyVal)
  : result PyError GitLabCIParallelMatrix :=
  result_map (fun p => {| pm_matrix := p.1; pm_model_extra := p.2 |})
    (construct "GitLabCIParallelMatrix"
       GitLabCIParallelMatrix_validate_matrix kwargs).

(** [GitLabCIParallel = Union[int, GitLabCIParallelObject]]. *)
Inductive GitLabCIParallel : Type :=
| ParallelCount (n : Z)
| ParallelObject (o : GitLabCIParallelObject).

(** [parse_parallel]: [int_value value] is [Some n] exactly when
    [isinstance(value, int)] holds, [n] being what [value] compares as. *)
Definition parse_parallel (value : PyVal) : result PyError GitLabCIParallel :=
  match int_value value with
  | Some n =>
      if (n <? 2) || (n >? 200) then
        Err (ValueError [Lit "Parallel value must be between 2 and 200"])
      else Ok (ParallelCount n)
  | None =>
      match value with
      | PyDict kwargs =>
          result_map ParallelObject (GitLabCIParallelObject_init kwargs)
      | _ =>
          Err (ValueError [Lit "Invalid parallel configuration: "; Fmt value])
      end
  end.

(** What the specification asks of the error for an unrecognised shape:
    that its text names the accepted shapes, an integer and a matrix
    object.  Any of the usual words for either shape counts. *)
Definition names_accepted_shapes (text : string) : bool :=
  (mentions "int" text || mentions "number" text || mentions "count" text)
  && (mentions "matrix" text || mentions "object" text
      || mentions "mapping" text || mentions "dict" text).

Definition error_text (e : PyError) : option string :=
  match e with
  | ValueError msg => render msg
  | ValidationError _ _ => None
  end.

(** The messages and a sample matrix. *)
Definition range_message : fstring :=
  [Lit "Parallel value must be between 2 and 200"].

Definition empty_matrix_error : PyError :=
  ValidationError "GitLabCIParallelObject"
    [ValueErr "matrix" [Lit "Matrix cannot be empty"]].

Definition sample_matrix : list PyVal :=
  [PyDict {[ "A" := PyList [PyStr "x"; PyStr "y"] ]}].

End Parallel.

(** ** The base entity contract *)

Module Entity.

(** Modelled from the spec: the base entity framework (base.py) is not
    among the sources.  An entity is a bag of declared fields plus an open
    mapping of extension fields; [parse] type-checks and coerces the
    declared keys, keeps every other key verbatim, reports all field
    problems together and then runs the invariant check; [serialize] omits
    unset declared fields and merges the extension fields at the same
    level. *)
Inductive problem : Type :=
| MissingField (field : string)
| TypeMismatch (field : string) (accepted : string)
| InvariantViolation (reason : string).

Definition SchemaError : Type := list problem.

(** A declared field: its canonical name, an optional alternate (wire)
    name, whether it must be present, and its check-and-coerce step. *)
Record field : Type := {
  name : string;
  alias : option string;
  required : bool;
  check : PyVal -> result problem PyVal
}.

Definition wire (f : field) : string := default (name f) (alias f).

Definition keys_of (f : field) : list string :=
  match alias f with
  | Some a => [name f; a]
  | None => [name f]
  end.

Record schema : Type := {
  fields : list field;
  invariant : gmap string PyVal -> list problem
}.

Definition all_names (sch : schema) : list string :=
  flat_map keys_of (fields sch).

(** Declared values are kept under the canonical name, in normal form. *)
Record entity : Type := {
  declared : gmap string PyVal;
  extension : gmap string PyVal
}.

(** A declared field is read under its wire name or, failing that, under
    its canonical name. *)
Definition raw_lookup (f : field) (raw : gmap string PyVal) : option PyVal :=
  match raw !! wire f with
  | Some v => Some v
  | None => raw !! name f
  end.

(** The outcome for one field: [None] when it stays unset (absent or
    [None] in the raw mapping). *)
Definition field_result (f : field) (raw : gmap string PyVal)
  : option (result problem PyVal) :=
  match raw_lookup f raw with
  | None | Some PyNone =>
      if required f then Some (Err (MissingField (wire f))) else None
  | Some v => Some (check f v)
  end.

Fixpoint parse_fields (fs : list field) (raw : gmap string PyVal)
  : list problem * gmap string PyVal :=
  match fs with
  | [] => ([], ∅)
  | f :: fs' =>
      let '(ps, d) := parse_fields fs' raw in
      match field_result f raw with
      | None => (ps, d)
      | Some (Ok w) => (ps, <[name f := w]> d)
      | Some (Err p) => (p :: ps, d)
      end
  end.

Definition extension_of (sch : schema) (raw : gmap string PyVal)
  : gmap string PyVal :=
  filter (fun kv => kv.1 ∉ all_names sch) raw.

(** Modelled from the spec: [parse] of the base entity (base.py, not
    among the sources).  Every field problem is collected; the invariant
    check runs once all fields are populated. *)
Definition parse (sch : schema) (raw : gmap string PyVal)
  : result SchemaError entity :=
  let '(ps, d) := parse_fields (fields sch) raw in
  match ps with
  | [] =>
      match invariant sch d with
      | [] => Ok {| declared := d; extension := extension_of sch raw |}
      | qs => Err qs
      end
  | _ => Err ps
  end.

Definition emit_field (d : gmap string PyVal) (f : field)
    (acc : gmap string PyVal) : gmap string PyVal :=
  match d !! name f with
  | Some v => <[wire f := v]> acc
  | None => acc
  end.

(** Modelled from the spec: [serialize] of the base entity (base.py, not
    among the sources).  A declared field that is set goes out under its
    wire name, an unset one is left out, the extension fields go out beside
    them. *)
Definition serialize (sch : schema) (e : entity) : gmap string PyVal :=
  foldr (emit_field (declared e)) (extension e) (fields sch).

(** The conditions a schema is used under: no two declared names or
    aliases collide, and a value that passed a field's check passes it again
    unchanged and is not [None]. *)
Definition stable (f : field) : Prop :=
  forall v w, v <> PyNone -> check f v = Ok w ->
    w <> PyNone /\ check f w = Ok w.

Record well_formed (sch : schema) : Prop := {
  wf_names : NoDup (all_names sch);
  wf_stable : forall f, f ∈ fields sch -> stable f
}.

(** Field checks shared by the instances. *)
Definition any_shape (v : PyVal) : result problem PyVal := Ok v.

Definition string_field (fname : string) (v : PyVal) : result problem PyVal :=
  match v with
  | PyStr s => Ok (PyStr s)
  | _ => Err (TypeMismatch fname "string")
  end.

Definition optional (fname : string)
    (chk : string -> PyVal -> result problem PyVal) : field :=
  {| name := fname; alias := None; required := false; check := chk fname |}.

(** A check whose only refusal is a type mismatch on its own field, and a
    field that is optional, has no alias and such a check. *)
Definition errors_are_mismatches
    (chk : string -> PyVal -> result problem PyVal) : Prop :=
  forall fname v p, chk fname v = Err p ->
    exists accepted, p = TypeMismatch fname accepted.

Definition plain_optional (f : field) : Prop :=
  alias f = None /\ required f = false /\
  forall v p, check f v = Err p ->
    exists accepted, p = TypeMismatch (name f) accepted.

End Entity.

(** ** Scalar coercion *)

Module Coercion.
Import Entity.

(** Modelled from the spec: the scalar coercion utilities are not among
    the sources.  A bare string becomes a one-element list, a list is used
    as it is (an empty one too), any other type is a type mismatch. *)
Definition scalar_or_list (fname : string) (v : PyVal)
  : result problem PyVal :=
  match v with
  | PyStr s => Ok (PyList [PyStr s])
  | PyList items => Ok (PyList items)
  | _ => Err (TypeMismatch fname "string or list of strings")
  end.

(** The rule for paths and files is the same rule. *)
Definition paths_to_list : string -> PyVal -> result problem PyVal :=
  scalar_or_list.

End Coercion.

(** ** The cache key *)

Module Cache.
Import Entity Coercion.

Definition both_message : string := "cannot specify both key and files".
Definition neither_message : string := "either key or files must be specified".
Definition prefix_message : string := "prefix can only be used with files".

(** Modelled from the spec: the cache key entity (cache.py) is not among
    the sources.  Exactly one of [key] and [files] may be set, and [prefix]
    requires [files]. *)
Definition cache_key_invariant (d : gmap string PyVal) : list problem :=
  match d !! "key", d !! "files" with
  | Some _, Some _ => [InvariantViolation both_message]
  | None, None => [InvariantViolation neither_message]
  | Some _, None =>
      match d !! "prefix" with
      | Some _ => [InvariantViolation prefix_message]
      | None => []
      end
  | None, Some _ => []
  end.

(** Modelled from the spec: the fields of the cache key; [files] follows
    the paths-and-files coercion rule. *)
Definition cache_key_schema : schema :=
  {| fields := [ optional "key" string_field;
                 optional "files" paths_to_list;
                 optional "prefix" string_field ];
     invariant := cache_key_invariant |}.

(** The keyword arguments of a construction: each of the three may be
    given or left out; [files] may be one path or a list of paths. *)
Inductive files_arg : Type :=
| OnePath (p : string)
| Paths (ps : list string).

Definition files_raw (f : files_arg) : PyVal :=
  match f with
  | OnePath p => PyStr p
  | Paths ps => PyList (PyStr <$> ps)
  end.

Definition files_list (f : files_arg) : list string :=
  match f with
  | OnePath p => [p]
  | Paths ps => ps
  end.

Definition set_arg (k : string) (v : option PyVal)
    (kwargs : gmap string PyVal) : gmap string PyVal :=
  match v with
  | Some x => <[k := x]> kwargs
  | None => kwargs
  end.

Definition cache_key_kwargs (key : option string) (files : option files_arg)
    (prefix : option string) : gmap string PyVal :=
  set_arg "key" (PyStr <$> key)
    (set_arg "files" (files_raw <$> files)
       (set_arg "prefix" (PyStr <$> prefix) ∅)).

Definition GitLabCICacheKey (key : option string) (files : option files_arg)
    (prefix : option string) : result SchemaError entity :=
  parse cache_key_schema (cache_key_kwargs key files prefix).

Definition has_problem (reason : string) (errs : SchemaError) : bool :=
  existsb (fun p => match p with
                    | InvariantViolation r => mentions reason r
                    | _ => false
                    end) errs.

End Cache.

(** ** The job *)

Module Job.
Import Entity Coercion.

Definition when_values : list string :=
  ["on_success"; "on_failure"; "always"; "manual"; "delayed"; "never"].

Definition when_field (fname : string) (v : PyVal) : result problem PyVal :=
  match v with
  | PyStr s =>
      if bool_decide (s ∈ when_values) then Ok (PyStr s)
      else Err (TypeMismatch fname "one of the when values")
  | _ => Err (TypeMismatch fname "one of the when values")
  end.

(** [parallel] goes through [parse_parallel]. *)
Definition parallel_field (fname : string) (v : PyVal) : result problem PyVal :=
  match Parallel.parse_parallel v with
  | Ok _ => Ok v
  | Err _ => Err (TypeMismatch fname "integer 2..200 or matrix object")
  end.

Definition retry_count_ok (v : PyVal) : bool :=
  match v with
  | PyInt n => (0 <=? n) && (n <=? 2)
  | _ => false
  end.

Definition retry_field (fname : string) (v : PyVal) : result problem PyVal :=
  match v with
  | PyInt _ =>
      if retry_count_ok v then Ok v
      else Err (TypeMismatch fname "integer 0..2 or retry object")
  | PyDict m =>
      match m !! "max" with
      | None => Ok v
      | Some mx =>
          if retry_count_ok mx then Ok v
          else Err (TypeMismatch fname "integer 0..2 or retry object")
      end
  | _ => Err (TypeMismatch fname "integer 0..2 or retry object")
  end.

Definition trigger_field (fname : string) (v : PyVal) : result problem PyVal :=
  match v with
  | PyStr _ | PyDict _ => Ok v
  | _ => Err (TypeMismatch fname "string or trigger object")
  end.

Definition sub_entity (fname : string) (v : PyVal) : result problem PyVal :=
  any_shape v.

(** Modelled from the spec: the job entity (job.py) is not among the
    sources.  Every field is optional and there is no job-level invariant:
    none of [script], [run] and [trigger] is mandatory.  The command and
    name lists are scalar-or-list fields; [stage], [timeout], [coverage] and
    [resource_group] are strings; [when], [retry], [parallel] and [trigger]
    are shape-checked; the remaining sub-entities have schemas of their own,
    which this model takes as given. *)
Definition job_fields : list field :=
  [ optional "script" scalar_or_list;
    optional "before_script" scalar_or_list;
    optional "after_script" scalar_or_list;
    optional "run" scalar_or_list;
    optional "extends" scalar_or_list;
    optional "tags" scalar_or_list;
    optional "stage" string_field;
    optional "timeout" string_field;
    optional "coverage" string_field;
    optional "resource_group" string_field;
    optional "when" when_field;
    optional "retry" retry_field;
    optional "parallel" parallel_field;
    optional "trigger" trigger_field;
    optional "image" sub_entity;
    optional "services" sub_entity;
    optional "variables" sub_entity;
    optional "cache" sub_entity;
    optional "artifacts" sub_entity;
    optional "rules" sub_entity;
    optional "needs" sub_entity;
    optional "dependencies" sub_entity;
    optional "environment" sub_entity;
    optional "allow_failure" sub_entity;
    optional "release" sub_entity;
    optional "inherit" sub_entity;
    optional "secrets" sub_entity;
    optional "id_tokens" sub_entity;
    optional "hooks" sub_entity;
    optional "identity" sub_entity;
    optional "dast_configuration" sub_entity ].

Definition job_schema : schema :=
  {| fields := job_fields; invariant := fun _ => [] |}.

Definition GitLabCIJob (block : gmap string PyVal)
  : result SchemaError entity :=
  parse job_schema block.

(** Sample blocks. *)
Definition empty_job : entity := {| declared := ∅; extension := ∅ |}.

Definition template_block : gmap string PyVal :=
  {[ "stage" := PyStr "test"; "extends" := PyStr ".tmpl";
     "when" := PyStr "manual"; "future_job_feature" := PyBool true ]}.

Definition sample_block : gmap string PyVal :=
  {[ "script" := PyStr "echo hi"; "tags" := PyList [];
     "stage" := PyStr "test"; "image" := PyNone;
     "unknown_job_field" := PyStr "also preserved" ]}.

Definition sample_job : entity :=
  {| declared := {[ "script" := PyList [PyStr "echo hi"];
                    "tags" := PyList []; "stage" := PyStr "test" ]};
     extension := {[ "unknown_job_field" := PyStr "also preserved" ]} |}.

End Job.

(** ** The reference tag and its two load modes *)

Module Reference.

Inductive scalar : Type :=
| SNull
| SBool (b : bool)
| SInt (n : Z)
| SFloat (bits : Z)
| SStr (s : string).

(** Modelled from the spec: the loader and the resolution engine
    (yaml_parser.py) are not among the sources.  A document tree is made of
    scalars, sequences and ordered mappings, with one more variant for a
    node carrying the reference tag.  The external parser hands over the
    tag's payload, a sequence of strings; a loaded tree carries a
    placeholder instead. *)
Inductive tree (R : Type) : Type :=
| Scalar (s : scalar)
| Seq (items : list (tree R))
| Map (entries : list (string * tree R))
| Tagged (r : R).
Arguments Scalar {R} s.
Arguments Seq {R} items.
Arguments Map {R} entries.
Arguments Tagged {R} r.

Record GitLabReference : Type := {
  block_name : string;
  field_path : list string
}.

#[global] Instance GitLabReference_eq_dec : EqDecision GitLabReference.
Proof. solve_decision. Defined.

(** The parser's tree and the loaded tree. *)
Definition RawNode : Type := tree (list string).
Definition Loaded : Type := tree GitLabReference.

(** Rewriting the tagged nodes of a tree, everything else kept. *)
Fixpoint convert {R R'} (f : R -> option R') (t : tree R) : option (tree R') :=
  match t with
  | Scalar s => Some (Scalar s)
  | Seq items => Seq <$> mapM (convert f) items
  | Map entries =>
      Map <$> mapM (fun kv => match kv with
                              | (k, v) => pair k <$> convert f v
                              end) entries
  | Tagged r => Tagged <$> f r
  end.

Fixpoint retag_with {R R'} (f : R -> R') (t : tree R) : tree R' :=
  match t with
  | Scalar s => Scalar s
  | Seq items => Seq (retag_with f <$> items)
  | Map entries =>
      Map ((fun kv => match kv with (k, v) => (k, retag_with f v) end)
             <$> entries)
  | Tagged r => Tagged (f r)
  end.

(** Payload [[block_name, field, subfield, ...]]: one or more strings. *)
Definition placeholder_of (payload : list string) : option GitLabReference :=
  match payload with
  | [] => None
  | b :: path => Some {| block_name := b; field_path := path |}
  end.

Definition payload_of (r : GitLabReference) : list string :=
  block_name r :: field_path r.

(** Modelled from the spec: the placeholder mode of the loader
    (yaml_parser.py, not among the sources): each tagged node becomes a
    placeholder carrying its block name and field path, and nothing is
    looked up. *)
Definition to_placeholders : RawNode -> option Loaded :=
  convert placeholder_of.

Definition retag : Loaded -> RawNode := retag_with payload_of.

(** The tags of a tree, in walk order. *)
Fixpoint refs_of {R} (t : tree R) : list R :=
  match t with
  | Scalar _ => []
  | Seq items => flat_map refs_of items
  | Map entries => flat_map (fun kv => refs_of kv.2) entries
  | Tagged r => [r]
  end.

Definition ref_free {R} (t : tree R) : Prop := refs_of t = [].

(** *** Eager resolution *)

Inductive ReferenceError : Type :=
| UnknownBlock (r : GitLabReference)
| UnknownField (r : GitLabReference)
| CircularReference (cycle : list GitLabReference).

(** The walk either finishes, fails, or (in the model only) uses up the
    unfolding budget it was given. *)
Inductive outcome (A : Type) : Type :=
| Resolved (a : A)
| Failed (e : ReferenceError)
| OutOfFuel.
Arguments Resolved {A} a.
Arguments Failed {A} e.
Arguments OutOfFuel {A}.

Definition outcome_bind {A B} (o : outcome A) (k : A -> outcome B) : outcome B :=
  match o with
  | Resolved a => k a
  | Failed e => Failed e
  | OutOfFuel => OutOfFuel
  end.

Definition outcome_map {A B} (f : A -> B) (o : outcome A) : outcome B :=
  outcome_bind o (fun a => Resolved (f a)).

Definition each {A B} (f : A -> outcome B) : list A -> outcome (list B) :=
  fix go l :=
    match l with
    | [] => Resolved []
    | x :: l' =>
        outcome_bind (f x) (fun y =>
        outcome_bind (go l') (fun ys => Resolved (y :: ys)))
    end.

Fixpoint assoc {A} (k : string) (entries : list (string * A)) : option A :=
  match entries with
  | [] => None
  | (k', v) :: rest => if decide (k = k') then Some v else assoc k rest
  end.

(** Descending a field path into a block. *)
Fixpoint descend (path : list string) (t : Loaded) : option Loaded :=
  match path with
  | [] => Some t
  | seg :: path' =>
      match t with
      | Map entries =>
          match assoc seg entries with
          | Some v => descend path' v
          | None => None
          end
      | _ => None
      end
  end.

(** What an item of a sequence contributes once resolved: a reference
    that resolved to a sequence gives its items, anything else gives itself
    (tests/test_gitlab_reference.py, test_gitlab_reference_resolution: a
    [before_script] holding one reference to a list is that list). *)
Definition contribution (item resolved : Loaded) : list Loaded :=
  match item, resolved with
  | Tagged _, Seq items => items
  | _, _ => [resolved]
  end.

(** The depth-first walk, [on_ref] deciding what replaces a tagged node. *)
Fixpoint walk (on_ref : GitLabReference -> outcome Loaded) (t : Loaded)
  : outcome Loaded :=
  match t with
  | Scalar s => Resolved (Scalar s)
  | Seq items =>
      outcome_map (fun parts => Seq (concat parts))
        (each (fun x => outcome_map (contribution x) (walk on_ref x)) items)
  | Map entries =>
      outcome_map Map
        (each (fun kv => match kv with
                         | (k, v) => outcome_map (pair k) (walk on_ref v)
                         end) entries)
  | Tagged r => on_ref r
  end.

(** Modelled from the spec: the eager mode of the loader (yaml_parser.py,
    not among the sources).  A tagged node is looked up in the top-level
    mapping, its path is descended, and the value found is resolved before
    it is substituted (spliced, where [contribution] says so); [chain] holds the references being resolved, and
    meeting one of them again is a circular reference.  [fuel] bounds the
    number of nested unfoldings. *)
Fixpoint resolve_in (fuel : nat) (top : list (string * Loaded))
    (chain : list GitLabReference) (t : Loaded) {struct fuel}
  : outcome Loaded :=
  match fuel with
  | O => OutOfFuel
  | S fuel' =>
      walk (fun r =>
              if decide (r ∈ chain) then
                Failed (CircularReference (reverse chain ++ [r]))
              else
                match assoc (block_name r) top with
                | None => Failed (UnknownBlock r)
                | Some block =>
                    match descend (field_path r) block with
                    | None => Failed (UnknownField r)
                    | Some v => resolve_in fuel' top (r :: chain) v
                    end
                end) t
  end.

Definition top_level (doc : Loaded) : list (string * Loaded) :=
  match doc with
  | Map entries => entries
  | _ => []
  end.

Definition resolve_references (doc : Loaded) : outcome Loaded :=
  resolve_in (S (length (refs_of doc))) (top_level doc) [] doc.

(** *** What resolution is measured against *)

(** The value a reference points at, when its block and path exist. *)
Definition target (top : list (string * Loaded)) (r : GitLabReference)
  : option Loaded :=
  match assoc (block_name r) top with
  | Some block => descend (field_path r) block
  | None => None
  end.

(** [r] points to [r'] when [r'] occurs in the value [r] points at. *)
Definition points_to (top : list (string * Loaded))
    (r r' : GitLabReference) : Prop :=
  exists v, target top r = Some v /\ r' ∈ refs_of v.

(** A document has a reference cycle when following its references from
    one of them leads to a reference that leads back to itself. *)
Definition has_cycle (doc : Loaded) : Prop :=
  exists r0 r, r0 ∈ refs_of doc /\
    rtc (points_to (top_level doc)) r0 r /\
    tc (points_to (top_level doc)) r r.

Definition targets_present (doc : Loaded) : Prop :=
  forall r, r ∈ refs_of doc -> is_Some (target (top_level doc) r).

(** A list of references each of which points to the next. *)
Fixpoint follows (top : list (string * Loaded))
    (c : list GitLabReference) : Prop :=
  match c with
  | a :: (b :: _) as rest => points_to top a b /\ follows top rest
  | _ => True
  end.

(** Full expansion, stated on its own: a scalar is itself, a mapping keeps
    its keys and expands its values, a sequence is made of the contributions
    of its items, and a reference expands to the expansion of the value it
    points at. *)
Inductive expands (top : list (string * Loaded)) : Loaded -> Loaded -> Prop :=
| expands_scalar (s : scalar) : expands top (Scalar s) (Scalar s)
| expands_seq (items items' : list Loaded) :
    expands_items top items items' -> expands top (Seq items) (Seq items')
| expands_map (entries entries' : list (string * Loaded)) :
    expands_entries top entries entries' ->
    expands top (Map entries) (Map entries')
| expands_tagged (r : GitLabReference) (v t' : Loaded) :
    target top r = Some v -> expands top v t' -> expands top (Tagged r) t'
with expands_items (top : list (string * Loaded))
  : list Loaded -> list Loaded -> Prop :=
| expands_items_nil : expands_items top [] []
| expands_items_cons (x t' : Loaded) (rest rest' : list Loaded) :
    expands top x t' -> expands_items top rest rest' ->
    expands_items top (x :: rest) (contribution x t' ++ rest')
with expands_entries (top : list (string * Loaded))
  : list (string * Loaded) -> list (string * Loaded) -> Prop :=
| expands_entries_nil : expands_entries top [] []
| expands_entries_cons (k : string) (v v' : Loaded)
    (rest rest' : list (string * Loaded)) :
    expands top v v' -> expands_entries top rest rest' ->
    expands_entries top ((k, v) :: rest) ((k, v') :: rest').

Scheme expands_mind := Induction for expands Sort Prop
with expands_items_mind := Induction for expands_items Sort Prop
with expands_entries_mind := Induction for expands_entries Sort Prop.

(** The cases of the walk at a reference: on the chain, block missing,
    path missing, or a value to resolve. *)
Ltac at_reference r chain top Hin Hb Hv :=
  destruct (decide (r ∈ chain)) as [Hin | Hin];
  [| destruct (assoc (block_name r) top) as [?block|] eqn:Hb;
     [destruct (descend (field_path r) block) as [?v|] eqn:Hv |]].

(** *** Load and dump *)

Inductive LoadError : Type :=
| SyntaxError
| MalformedReference
| ResolutionError (e : ReferenceError)
| Unfinished.

Section LoadDump.
(** The external parser and emitter. *)
Context {text : Type}.
Variable parse_tree : text -> option RawNode.
Variable emit_tree : RawNode -> text.

(** Modelled from the spec: [load] and [dump] (yaml_parser.py, not
    among the sources), compositions of the external parser and emitter
    with the steps above. *)
Definition load (source : text) (resolve_refs : bool)
  : result LoadError Loaded :=
  match parse_tree source with
  | None => Err SyntaxError
  | Some raw =>
      match to_placeholders raw with
      | None => Err MalformedReference
      | Some t =>
          if resolve_refs then
            match resolve_references t with
            | Resolved t' => Ok t'
            | Failed e => Err (ResolutionError e)
            | OutOfFuel => Err Unfinished
            end
          else Ok t
      end
  end.

Definition dump (t : Loaded) : text := emit_tree (retag t).
End LoadDump.

(** Sample documents. *)
Definition ref (b : string) (path : list string) : Loaded :=
  Tagged {| block_name := b; field_path := path |}.

Definition cyclic_doc : Loaded :=
  Map [ ("A", Map [("script", ref "B" ["script"])]);
        ("B", Map [("script", ref "C" ["script"])]);
        ("C", Map [("script", ref "A" ["script"])]) ].

Definition chained_doc : Loaded :=
  Map [ ("A", Map [("script", ref "B" ["script"])]);
        ("B", Map [("script", ref "C" ["script"])]);
        ("C", Map [("script", Seq [Scalar (SStr "make")])]) ].

Definition chained_doc_resolved : Loaded :=
  Map [ ("A", Map [("script", Seq [Scalar (SStr "make")])]);
        ("B", Map [("script", Seq [Scalar (SStr "make")])]);
        ("C", Map [("script", Seq [Scalar (SStr "make")])]) ].

(** The document of the resolution test, and a cycle of five. *)
Definition setup_doc : Loaded :=
  Map [ (".common", Map [("before_script",
                          Seq [Scalar (SStr "echo Setup");
                               Scalar (SStr "source env.sh")])]);
        ("test-job", Map [("before_script",
                           Seq [ref ".common" ["before_script"]]);
                          ("script", Seq [Scalar (SStr "pytest")])]) ].

Definition setup_doc_resolved : Loaded :=
  Map [ (".common", Map [("before_script",
                          Seq [Scalar (SStr "echo Setup");
                               Scalar (SStr "source env.sh")])]);
        ("test-job", Map [("before_script",
                           Seq [Scalar (SStr "echo Setup");
                                Scalar (SStr "source env.sh")]);
                          ("script", Seq [Scalar (SStr "pytest")])]) ].

Definition five_cycle_doc : Loaded :=
  Map [ ("A", Map [("x", ref "B" ["x"])]);
        ("B", Map [("x", ref "C" ["x"])]);
        ("C", Map [("x", ref "D" ["x"])]);
        ("D", Map [("x", ref "E" ["x"])]);
        ("E", Map [("x", ref "A" ["x"])]) ].

Definition five_cycle : list GitLabReference :=
  [ {| block_name := "B"; field_path := ["x"] |};
    {| block_name := "C"; field_path := ["x"] |};
    {| block_name := "D"; field_path := ["x"] |};
    {| block_name := "E"; field_path := ["x"] |};
    {| block_name := "A"; field_path := ["x"] |};
    {| block_name := "B"; field_path := ["x"] |} ].

Definition template_doc : RawNode :=
  Map [ (".tmpl", Map [("script", Seq [Scalar (SStr "build.sh")])]);
        ("job", Map [("extends", Scalar (SStr ".tmpl"));
                     ("script", Seq [Tagged [".tmpl"; "script"];
                                     Scalar (SStr "deploy.sh")])]) ].

Definition template_loaded : Loaded :=
  Map [ (".tmpl", Map [("script", Seq [Scalar (SStr "build.sh")])]);
        ("job", Map [("extends", Scalar (SStr ".tmpl"));
                     ("script", Seq [ref ".tmpl" ["script"];
                                     Scalar (SStr "deploy.sh")])]) ].

Definition abc_cycle : list GitLabReference :=
  [ {| block_name := "B"; field_path := ["script"] |};
    {| block_name := "C"; field_path := ["script"] |};
    {| block_name := "A"; field_path := ["script"] |};
    {| block_name := "B"; field_path := ["script"] |} ].

End Reference.

(** ** Shapes of the parallel matrix *)

Module ParallelShapes.
Import Parallel.

(** An entry the loop of [GitLabCIParallelMatrix.validate_matrix] lets
    pass: a dictionary that is not empty. *)
Definition is_nonempty_dict (entry : PyVal) : bool :=
  isinstance_dict entry && negb (dict_is_empty entry).

(** The message the loop raises for the entry at index [idx]. *)
Definition entry_message (idx : Z) (entry : PyVal) : fstring :=
  [Lit "Matrix entry "; Fmt (PyInt idx);
   Lit (if isinstance_dict entry then " cannot be empty"
        else " must be a dictionary")].

(** A value of [Union[str, List[str]]]. *)
Definition dimension_value (v : PyVal) : bool :=
  match v with
  | PyStr _ => true
  | PyList items => forallb isinstance_str items
  | _ => false
  end.

(** A value of [Dict[str, Union[str, List[str]]]]. *)
Definition dimension_map (entry : PyVal) : Prop :=
  exists entries, entry = PyDict entries /\
    map_Forall (fun _ v => dimension_value v = true) entries.

End ParallelShapes.

(** ** Normalisation of loaded data *)

Module Normalize.

Definition is_none (v : PyVal) : bool :=
  match v with PyNone => true | _ => false end.

(** [TestYAMLRoundtrip.normalize_yaml_data]
    (tests/integration/test_yaml_roundtrip.py): a mapping keeps the keys
    whose value is not [None], each with its value normalised; a list has
    its items normalised, none dropped; anything else is returned as it
    is. *)
Fixpoint normalize_yaml_data (data : PyVal) : PyVal :=
  match data with
  | PyDict entries =>
      PyDict (omap (fun v => if is_none v then None
                             else Some (normalize_yaml_data v)) entries)
  | PyList items => PyList (normalize_yaml_data <$> items)
  | _ => data
  end.

(** No mapping, at any depth, has [None] as a value.  An item of a list
    may be [None]. *)
Fixpoint no_none_values (data : PyVal) : bool :=
  match data with
  | PyDict entries =>
      map_fold (fun _ v acc => negb (is_none v) && no_none_values v && acc)
        true entries
  | PyList items => forallb no_none_values items
  | _ => true
  end.

(** The number of nodes of a value, the measure of the induction below. *)
Fixpoint py_size (v : PyVal) : nat :=
  match v with
  | PyDict entries =>
      S (map_fold (fun _ v acc => (py_size v + acc)%nat) 0%nat entries)
  | PyList items => S (foldr (fun v acc => (py_size v + acc)%nat) 0%nat items)
  | _ => 1%nat
  end.

End Normalize.

(** * Properties *)

(** ** parallel.py *)

Module ParallelFacts.
Import Parallel.

Lemma parse_parallel_int (value : PyVal) (n : Z) :
  int_value value = Some n ->
  parse_parallel value =
    if (n <? 2) || (n >? 200) then Err (ValueError range_message)
    else Ok (ParallelCount n).
Proof. intros Hn. unfold parse_parallel. now rewrite Hn. Qed.

Lemma parse_parallel_dict (kwargs : gmap string PyVal) :
  parse_parallel (PyDict kwargs) =
    result_map ParallelObject (GitLabCIParallelObject_init kwargs).
Proof. reflexivity. Qed.

Lemma as_matrix_list (l : list PyVal) :
  as_matrix (PyList l) =
    if conforms matrix_annotation (PyList l) then Some l else None.
Proof. reflexivity. Qed.

(** C1: an integer between 2 and 200 is returned unchanged; an integer
    below 2 or above 200 is refused with an error, as are 1 and 250.  The
    statement covers every [int] instance, booleans included. *)
Theorem parse_parallel_count_range (value : PyVal) (n : Z) :
  int_value value = Some n ->
  (2 <= n <= 200 -> parse_parallel value = Ok (ParallelCount n)) /\
  (n < 2 \/ n > 200 ->
     parse_parallel value = Err (ValueError range_message)) /\
  parse_parallel (PyInt 1) = Err (ValueError range_message) /\
  parse_parallel (PyInt 250) = Err (ValueError range_message).
Proof.
  intros Hn. rewrite (parse_parallel_int _ _ Hn).
  repeat split; try reflexivity.
  - intros [Hlo Hhi].
    destruct (Z.ltb_spec n 2), (Z.gtb_spec n 200); simpl; try lia; reflexivity.
  - intros Hout.
    destruct (Z.ltb_spec n 2), (Z.gtb_spec n 200); simpl; try lia; reflexivity.
Qed.

Lemma parse_parallel_count_range_witness :
  parse_parallel (PyInt 7) = Ok (ParallelCount 7) /\
  parse_parallel (PyInt 201) = Err (ValueError range_message) /\
  parse_parallel (PyBool true) = Err (ValueError range_message).
Proof.
  split; [| split].
  - destruct (parse_parallel_count_range (PyInt 7) 7 eq_refl) as (H & _).
    apply H. lia.
  - destruct (parse_parallel_count_range (PyInt 201) 201 eq_refl)
      as (_ & H & _).
    apply H. lia.
  - destruct (parse_parallel_count_range (PyBool true) 1 eq_refl)
      as (_ & H & _).
    apply H. lia.
Defined.

(** C2: a mapping whose [matrix] is the empty list is refused; a mapping
    whose [matrix] is a non-empty list of the declared type is accepted and
    the constructed object's matrix is the input list; and whatever object
    is constructed from a mapping carries the input list as its matrix. *)
Theorem parse_parallel_matrix_list (kwargs : gmap string PyVal)
    (l : list PyVal) :
  kwargs !! "matrix" = Some (PyList l) ->
  (l = [] -> parse_parallel (PyDict kwargs) = Err empty_matrix_error) /\
  (l <> [] -> conforms matrix_annotation (PyList l) = true ->
     exists o, parse_parallel (PyDict kwargs) = Ok (ParallelObject o) /\
               matrix o = l) /\
  (forall r, parse_parallel (PyDict kwargs) = Ok r ->
     exists o, r = ParallelObject o /\ matrix o = l /\ l <> []).
Proof.
  intros Hm. rewrite parse_parallel_dict.
  unfold GitLabCIParallelObject_init, construct.
  rewrite Hm, as_matrix_list.
  split; [| split].
  - intros ->. reflexivity.
  - intros Hne Hty. rewrite Hty.
    destruct l as [| x l']; [congruence |]. simpl. eauto.
  - intros r.
    destruct (conforms matrix_annotation (PyList l)); [| discriminate].
    destruct l as [| x l']; simpl; [discriminate |].
    intros [= <-]. eexists. repeat split. discriminate.
Qed.

Lemma parse_parallel_matrix_list_witness :
  (exists o, parse_parallel (PyDict {[ "matrix" := PyList sample_matrix ]})
             = Ok (ParallelObject o) /\ matrix o = sample_matrix) /\
  parse_parallel (PyDict {[ "matrix" := PyList [] ]}) = Err empty_matrix_error.
Proof.
  split.
  - assert (Hk : ({[ "matrix" := PyList sample_matrix ]}
                    : gmap string PyVal) !! "matrix"
                 = Some (PyList sample_matrix)) by (vm_compute; reflexivity).
    destruct (parse_parallel_matrix_list _ _ Hk) as (_ & H & _).
    apply H; [discriminate | vm_compute; reflexivity].
  - assert (Hk : ({[ "matrix" := PyList [] ]} : gmap string PyVal)
                   !! "matrix" = Some (PyList [])) by (vm_compute; reflexivity).
    destruct (parse_parallel_matrix_list _ _ Hk) as (H & _).
    apply H. reflexivity.
Defined.

(** C3, as the code has it: an input that is neither an [int] instance
    nor a mapping never yields a value; it is refused with a [ValueError]
    whose text is the fixed words "Invalid parallel configuration: "
    followed by the input itself.  The fixed words name the parallel
    configuration and list no accepted shape. *)
Theorem parse_parallel_unrecognised_shape (value : PyVal) :
  isinstance_int value = false ->
  isinstance_dict value = false ->
  parse_parallel value =
    Err (ValueError [Lit "Invalid parallel configuration: "; Fmt value]) /\
  mentions "parallel"
    (literal_text [Lit "Invalid parallel configuration: "; Fmt value]) = true /\
  names_accepted_shapes
    (literal_text [Lit "Invalid parallel configuration: "; Fmt value]) = false.
Proof.
  intros Hint Hdict.
  split; [| split; vm_compute; reflexivity].
  destruct value; simpl in *; try discriminate; reflexivity.
Qed.

Lemma parse_parallel_unrecognised_shape_witness :
  parse_parallel (PyList [PyInt 3]) =
    Err (ValueError [Lit "Invalid parallel configuration: ";
                     Fmt (PyList [PyInt 3])]).
Proof.
  destruct (parse_parallel_unrecognised_shape (PyList [PyInt 3])
              eq_refl eq_refl) as (H & _).
  exact H.
Defined.

(** C3, as stated, fails at the string "fast": it is neither an integer
    nor a mapping, the call is refused, and the text of the error,
    "Invalid parallel configuration: fast", names no accepted shape. *)
Lemma parse_parallel_error_lists_no_shapes :
  isinstance_int (PyStr "fast") = false /\
  isinstance_dict (PyStr "fast") = false /\
  parse_parallel (PyStr "fast") =
    Err (ValueError [Lit "Invalid parallel configuration: ";
                     Fmt (PyStr "fast")]) /\
  error_text (ValueError [Lit "Invalid parallel configuration: ";
                          Fmt (PyStr "fast")])
    = Some "Invalid parallel configuration: fast" /\
  names_accepted_shapes "Invalid parallel configuration: fast" = false.
Proof. repeat split; vm_compute; reflexivity. Qed.

(** C10: a matrix whose only entry is an empty mapping is accepted and
    returned as given.  The check that refuses an empty entry belongs to
    [GitLabCIParallelMatrix], which refuses the same arguments; the
    validator of [GitLabCIParallelObject] accepts every non-empty list. *)
Theorem parse_parallel_accepts_empty_entry :
  parse_parallel (PyDict {[ "matrix" := PyList [PyDict ∅] ]}) =
    Ok (ParallelObject {| matrix := [PyDict ∅]; model_extra := ∅ |}) /\
  GitLabCIParallelMatrix_init {[ "matrix" := PyList [PyDict ∅] ]} =
    Err (ValidationError "GitLabCIParallelMatrix"
           [ValueErr "matrix"
              [Lit "Matrix entry "; Fmt (PyInt 0); Lit " cannot be empty"]]) /\
  (forall entry rest,
     GitLabCIParallelObject_validate_matrix (entry :: rest)
     = Ok (entry :: rest)).
Proof. repeat split; vm_compute; reflexivity. Qed.

End ParallelFacts.

(** ** The entity contract *)

Module EntityFacts.
Import Entity.

Section Fields.
Variable raw : gmap string PyVal.

Lemma field_result_unset (f : field) :
  field_result f raw = None -> required f = false.
Proof.
  unfold field_result.
  destruct (raw_lookup f raw) as [[]|]; destruct (required f); congruence.
Qed.

Lemma field_result_checked (f : field) (r : result problem PyVal) :
  field_result f raw = Some r ->
  r = Err (MissingField (wire f)) \/
  exists v, v <> PyNone /\ raw_lookup f raw = Some v /\ check f v = r.
Proof.
  unfold field_result.
  destruct (raw_lookup f raw) as [v|] eqn:Hv.
  - assert (Hcase : v = PyNone \/ v <> PyNone)
      by (destruct v; (now left) || (right; discriminate)).
    destruct Hcase as [->|Hne].
    + destruct (required f); [intros [= <-]; now left | discriminate].
    + intros Hr. right. exists v. repeat split; auto.
      destruct v; congruence.
  - destruct (required f); [intros [= <-]; now left | discriminate].
Qed.

Lemma field_result_optional (f : field) (r : result problem PyVal) :
  required f = false -> field_result f raw = Some r ->
  exists v, v <> PyNone /\ raw_lookup f raw = Some v /\ check f v = r.
Proof.
  intros Hreq Hr.
  destruct (field_result_checked f r Hr) as [->|]; [| done].
  revert Hr. unfold field_result. rewrite Hreq.
  destruct (raw_lookup f raw) as [v|] eqn:Hv; [| discriminate].
  intros Hr. exists v. repeat split; destruct v; congruence.
Qed.

Lemma field_result_set (f : field) (v : PyVal) :
  raw_lookup f raw = Some v -> v <> PyNone ->
  field_result f raw = Some (check f v).
Proof.
  intros Hv Hne. unfold field_result. rewrite Hv.
  destruct v; congruence.
Qed.

(** A declared value comes from a field of that name whose check passed. *)
Lemma parse_fields_declared (fs : list field) (k : string) (w : PyVal) :
  (parse_fields fs raw).2 !! k = Some w ->
  exists f, f ∈ fs /\ name f = k /\ field_result f raw = Some (Ok w).
Proof.
  induction fs as [| g fs IH]; simpl.
  - rewrite lookup_empty. discriminate.
  - destruct (parse_fields fs raw) as [ps d]. simpl in IH.
    destruct (field_result g raw) as [[w'|p]|] eqn:Hg; simpl.
    + destruct (decide (name g = k)) as [<-|Hne].
      * rewrite lookup_insert_eq. intros [= ->].
        exists g. split; [left | auto].
      * rewrite lookup_insert_ne by done. intros Hk.
        destruct (IH Hk) as (f & Hf & Hn & Hr).
        exists f. split; [now right | auto].
    + intros Hk. destruct (IH Hk) as (f & Hf & Hn & Hr).
      exists f. split; [now right | auto].
    + intros Hk. destruct (IH Hk) as (f & Hf & Hn & Hr).
      exists f. split; [now right | auto].
Qed.

Lemma parse_fields_lookup (fs : list field) (f : field) (w : PyVal) :
  f ∈ fs ->
  (forall g, g ∈ fs -> name g = name f -> g = f) ->
  field_result f raw = Some (Ok w) ->
  (parse_fields fs raw).2 !! name f = Some w.
Proof.
  induction fs as [| g fs IH]; intros Hin Huniq Hr.
  - inversion Hin.
  - simpl. destruct (parse_fields fs raw) as [ps d]. simpl in IH.
    destruct (decide (name g = name f)) as [Heq|Hne].
    + assert (g = f) as -> by (apply Huniq; [left | done]).
      rewrite Hr. simpl. apply lookup_insert_eq.
    + assert (Hin' : f ∈ fs).
      { apply elem_of_cons in Hin as [->|]; [congruence | done]. }
      assert (Hd : d !! name f = Some w).
      { apply IH; auto. intros g' Hg'. apply Huniq. now right. }
      destruct (field_result g raw) as [[w'|p]|]; simpl; auto.
      rewrite lookup_insert_ne by done. exact Hd.
Qed.

(** The problems are exactly the failed checks. *)
Lemma parse_fields_problems (fs : list field) (p : problem) :
  p ∈ (parse_fields fs raw).1 <->
  exists f, f ∈ fs /\ field_result f raw = Some (Err p).
Proof.
  induction fs as [| g fs IH]; simpl.
  - split; [intros H; inversion H | intros (f & H & _); inversion H].
  - destruct (parse_fields fs raw) as [ps d]. simpl in IH.
    destruct (field_result g raw) as [[w'|q]|] eqn:Hg; simpl.
    + rewrite IH. split; intros (f & Hf & Hr).
      * exists f. split; [now right | done].
      * apply elem_of_cons in Hf as [->|Hf]; [congruence | eauto].
    + rewrite elem_of_cons, IH. split.
      * intros [->|(f & Hf & Hr)].
        -- exists g. split; [left | done].
        -- exists f. split; [now right | done].
      * intros (f & Hf & Hr).
        apply elem_of_cons in Hf as [->|Hf]; [left; congruence | eauto].
    + rewrite IH. split; intros (f & Hf & Hr).
      * exists f. split; [now right | done].
      * apply elem_of_cons in Hf as [->|Hf]; [congruence | eauto].
Qed.

Lemma parse_fields_clean (fs : list field) :
  (forall f p, f ∈ fs -> field_result f raw <> Some (Err p)) ->
  (parse_fields fs raw).1 = [].
Proof.
  intros Hok. destruct (parse_fields fs raw).1 as [| p ps] eqn:Hps; [done |].
  assert (Hp : p ∈ (parse_fields fs raw).1) by (rewrite Hps; left).
  apply parse_fields_problems in Hp as (f & Hf & Hr).
  now destruct (Hok f p Hf).
Qed.
End Fields.

(** Parsing looks at the raw mapping through the fields only. *)
Lemma parse_fields_ext (fs : list field) (raw raw' : gmap string PyVal) :
  (forall f, f ∈ fs -> field_result f raw' = field_result f raw) ->
  parse_fields fs raw' = parse_fields fs raw.
Proof.
  induction fs as [| g fs IH]; intros Heq; [done |]. simpl.
  rewrite IH by (intros f Hf; apply Heq; now right).
  rewrite (Heq g) by left. reflexivity.
Qed.

Lemma parse_clean (sch : schema) (raw : gmap string PyVal) :
  (parse_fields (fields sch) raw).1 = [] ->
  invariant sch (parse_fields (fields sch) raw).2 = [] ->
  parse sch raw = Ok {| declared := (parse_fields (fields sch) raw).2;
                        extension := extension_of sch raw |}.
Proof.
  unfold parse. destruct (parse_fields (fields sch) raw) as [ps d]. simpl.
  now intros -> ->.
Qed.

Lemma parse_refused (sch : schema) (raw : gmap string PyVal)
    (errs : SchemaError) :
  parse sch raw = Err errs ->
  errs = (parse_fields (fields sch) raw).1 \/
  errs = invariant sch (parse_fields (fields sch) raw).2.
Proof.
  unfold parse. destruct (parse_fields (fields sch) raw) as [ps d]. simpl.
  destruct ps; [| intros [= <-]; now left].
  destruct (invariant sch d); [discriminate | intros [= <-]; now right].
Qed.

Lemma extension_lookup (sch : schema) (raw : gmap string PyVal) (k : string) :
  extension_of sch raw !! k =
    if decide (k ∈ all_names sch) then None else raw !! k.
Proof.
  unfold extension_of. destruct (decide (k ∈ all_names sch)) as [Hin|Hout].
  - apply map_lookup_filter_None. right. intros v _ Hk. now apply Hk.
  - destruct (raw !! k) as [v|] eqn:Hk.
    + apply map_lookup_filter_Some. split; done.
    + apply map_lookup_filter_None. now left.
Qed.

Section Serialize.
Variables d ext : gmap string PyVal.

Lemma emit_lookup_set (fs : list field) (f : field) (v : PyVal) :
  f ∈ fs ->
  (forall g, g ∈ fs -> wire g = wire f -> g = f) ->
  d !! name f = Some v ->
  foldr (emit_field d) ext fs !! wire f = Some v.
Proof.
  induction fs as [| g fs IH]; intros Hin Huniq Hd.
  - inversion Hin.
  - simpl. unfold emit_field at 1.
    destruct (decide (wire g = wire f)) as [Heq|Hne].
    + assert (g = f) as -> by (apply Huniq; [left | done]).
      rewrite Hd. apply lookup_insert_eq.
    + assert (Hin' : f ∈ fs).
      { apply elem_of_cons in Hin as [->|]; [congruence | done]. }
      assert (Hrec : foldr (emit_field d) ext fs !! wire f = Some v).
      { apply IH; auto. intros g' Hg'. apply Huniq. now right. }
      destruct (d !! name g); [| done].
      rewrite lookup_insert_ne by done. exact Hrec.
Qed.

Lemma emit_lookup_unset (fs : list field) (k : string) :
  (forall g, g ∈ fs -> wire g = k -> d !! name g = None) ->
  foldr (emit_field d) ext fs !! k = ext !! k.
Proof.
  induction fs as [| g fs IH]; intros Hnone; [done |].
  simpl. unfold emit_field at 1.
  assert (Hrec : foldr (emit_field d) ext fs !! k = ext !! k).
  { apply IH. intros g' Hg'. apply Hnone. now right. }
  destruct (d !! name g) as [v|] eqn:Hg; [| done].
  destruct (decide (wire g = k)) as [Heq|Hne].
  - rewrite (Hnone g) in Hg by (left || done). discriminate.
  - rewrite lookup_insert_ne by done. exact Hrec.
Qed.
End Serialize.

(** In a schema without collisions a key belongs to one field. *)
Lemma key_owner (fs : list field) (f g : field) (k : string) :
  NoDup (flat_map keys_of fs) ->
  f ∈ fs -> g ∈ fs -> k ∈ keys_of f -> k ∈ keys_of g -> f = g.
Proof.
  induction fs as [| h fs IH]; intros Hnd Hf Hg Hkf Hkg.
  - inversion Hf.
  - simpl in Hnd. apply NoDup_app in Hnd as (Hh & Hdisj & Hrest).
    assert (Hsub : forall x, x ∈ fs -> k ∈ keys_of x ->
                             k ∈ flat_map keys_of fs).
    { intros x Hx Hk. apply list_elem_of_In, in_flat_map.
      exists x. split; now apply list_elem_of_In. }
    apply elem_of_cons in Hf as [->|Hf];
      apply elem_of_cons in Hg as [->|Hg]; auto.
    + destruct (Hdisj k); eauto.
    + destruct (Hdisj k); eauto.
Qed.

Lemma name_is_key (f : field) : name f ∈ keys_of f.
Proof. unfold keys_of. destruct (alias f); left. Qed.

Lemma wire_is_key (f : field) : wire f ∈ keys_of f.
Proof.
  unfold keys_of, wire. destruct (alias f); simpl; [right; left | left].
Qed.

Lemma key_declared (sch : schema) (f : field) (k : string) :
  f ∈ fields sch -> k ∈ keys_of f -> k ∈ all_names sch.
Proof.
  intros Hf Hk. apply list_elem_of_In, in_flat_map.
  exists f. split; now apply list_elem_of_In.
Qed.

Lemma name_wire_same_field (sch : schema) (f g : field) :
  NoDup (all_names sch) -> f ∈ fields sch -> g ∈ fields sch ->
  wire g = name f -> g = f /\ wire f = name f.
Proof.
  intros Hnd Hf Hg Heq.
  assert (g = f) as ->.
  { apply (key_owner (fields sch) g f (name f)); auto.
    - rewrite <- Heq. apply wire_is_key.
    - apply name_is_key. }
  auto.
Qed.

Section RoundTrip.
Variable sch : schema.
Hypothesis Hwf : well_formed sch.
Variables (x : gmap string PyVal) (e : entity).
Hypothesis Hparse : parse sch x = Ok e.

Lemma parsed_fields :
  parse_fields (fields sch) x = ([], declared e) /\
  invariant sch (declared e) = [] /\
  extension e = extension_of sch x.
Proof.
  revert Hparse. unfold parse.
  destruct (parse_fields (fields sch) x) as [ps d].
  destruct ps; [| discriminate].
  destruct (invariant sch d) eqn:Hinv; [| discriminate].
  intros [= <-]. simpl. auto.
Qed.

Lemma names_unique (f g : field) :
  f ∈ fields sch -> g ∈ fields sch -> name g = name f -> g = f.
Proof.
  intros Hf Hg Heq.
  apply (key_owner (fields sch) g f (name f)); auto using name_is_key.
  - apply Hwf.
  - rewrite <- Heq. apply name_is_key.
Qed.

Lemma wires_unique (f g : field) :
  f ∈ fields sch -> g ∈ fields sch -> wire g = wire f -> g = f.
Proof.
  intros Hf Hg Heq.
  apply (key_owner (fields sch) g f (wire f)); auto using wire_is_key.
  - apply Hwf.
  - rewrite <- Heq. apply wire_is_key.
Qed.

(** What a field's outcome was is what the entity holds for it. *)
Lemma declared_lookup (f : field) :
  f ∈ fields sch ->
  match declared e !! name f with
  | Some w => field_result f x = Some (Ok w)
  | None => field_result f x = None
  end.
Proof.
  intros Hf. destruct parsed_fields as (Hpf & _ & _).
  destruct (field_result f x) as [[w|p]|] eqn:Hr.
  - assert (Hd : (parse_fields (fields sch) x).2 !! name f = Some w).
    { apply parse_fields_lookup; auto.
      intros g Hg. now apply names_unique. }
    rewrite Hpf in Hd. simpl in Hd. now rewrite Hd.
  - assert (Hp : p ∈ (parse_fields (fields sch) x).1)
      by (apply parse_fields_problems; eauto).
    rewrite Hpf in Hp. inversion Hp.
  - destruct (declared e !! name f) as [w|] eqn:Hd; [| done].
    assert (Hd' : (parse_fields (fields sch) x).2 !! name f = Some w)
      by now rewrite Hpf.
    apply parse_fields_declared in Hd' as (g & Hg & Hn & Hr').
    apply names_unique in Hn as ->; auto. congruence.
Qed.

(** Reading a declared field back from the serialized mapping. *)
Lemma serialize_raw_lookup (f : field) :
  f ∈ fields sch ->
  raw_lookup f (serialize sch e) = declared e !! name f.
Proof.
  intros Hf. destruct parsed_fields as (_ & _ & Hext).
  unfold raw_lookup, serialize.
  destruct (declared e !! name f) as [w|] eqn:Hd.
  - rewrite (emit_lookup_set _ _ _ f w); auto.
    intros g Hg. now apply wires_unique.
  - rewrite !emit_lookup_unset.
    + rewrite Hext, !extension_lookup.
      rewrite !decide_True; eauto using key_declared, wire_is_key, name_is_key.
    + intros g Hg Heq.
      destruct (name_wire_same_field sch f g) as [-> _]; auto. apply Hwf.
    + intros g Hg Heq. apply wires_unique in Heq as ->; auto.
Qed.

Lemma serialize_field_result (f : field) :
  f ∈ fields sch ->
  field_result f (serialize sch e) = field_result f x.
Proof.
  intros Hf. pose proof (declared_lookup f Hf) as Hd.
  pose proof (serialize_raw_lookup f Hf) as Hraw.
  destruct (declared e !! name f) as [w|].
  - rewrite Hd.
    destruct (field_result_checked x f _ Hd) as [|(v & Hv & _ & Hc)];
      [discriminate |].
    destruct (wf_stable sch Hwf f Hf v w Hv Hc) as [Hw Hcw].
    rewrite (field_result_set _ f w Hraw Hw). now rewrite Hcw.
  - rewrite Hd. unfold field_result. rewrite Hraw.
    now rewrite (field_result_unset x f Hd).
Qed.

Lemma serialize_extension :
  extension_of sch (serialize sch e) = extension e.
Proof.
  destruct parsed_fields as (_ & _ & Hext).
  apply map_eq. intros k. rewrite extension_lookup.
  destruct (decide (k ∈ all_names sch)) as [Hin|Hout].
  - rewrite Hext, extension_lookup. now rewrite decide_True.
  - unfold serialize. apply emit_lookup_unset.
    intros g Hg <-. destruct Hout.
    eauto using key_declared, wire_is_key.
Qed.

Lemma parse_serialize : parse sch (serialize sch e) = Ok e.
Proof.
  destruct parsed_fields as (Hpf & Hinv & Hext).
  unfold parse.
  rewrite (parse_fields_ext (fields sch) x (serialize sch e))
    by (intros f Hf; now apply serialize_field_result).
  rewrite Hpf, Hinv, serialize_extension.
  now destruct e.
Qed.

Lemma serialize_omits_unset (f : field) :
  f ∈ fields sch -> declared e !! name f = None ->
  serialize sch e !! wire f = None.
Proof.
  intros Hf Hd. pose proof (serialize_raw_lookup f Hf) as Hraw.
  rewrite Hd in Hraw. unfold raw_lookup in Hraw.
  now destruct (serialize sch e !! wire f).
Qed.

Lemma serialize_keeps_extension (k : string) (v : PyVal) :
  extension e !! k = Some v -> serialize sch e !! k = Some v.
Proof.
  intros Hk. destruct parsed_fields as (_ & _ & Hext).
  unfold serialize. rewrite emit_lookup_unset; [done |].
  intros g Hg <-. rewrite Hext, extension_lookup in Hk.
  rewrite decide_True in Hk by eauto using key_declared, wire_is_key.
  discriminate.
Qed.

Lemma extension_verbatim (k : string) :
  k ∉ all_names sch -> extension e !! k = x !! k.
Proof.
  intros Hk. destruct parsed_fields as (_ & _ & ->).
  rewrite extension_lookup. now rewrite decide_False.
Qed.
End RoundTrip.


Lemma optional_plain fname chk :
  errors_are_mismatches chk -> plain_optional (optional fname chk).
Proof. intros H. repeat split. intros v p. apply H. Qed.

End EntityFacts.

(** ** Scalar coercion *)

Module CoercionFacts.
Import Entity Coercion EntityFacts.

Lemma scalar_or_list_stable fname : stable (optional fname scalar_or_list).
Proof.
  intros v w _. destruct v; simpl; try discriminate;
    intros [= <-]; split; (discriminate || reflexivity).
Qed.

Lemma scalar_or_list_errors : errors_are_mismatches scalar_or_list.
Proof.
  intros fname v p. destruct v; simpl; try discriminate;
    intros [= <-]; eauto.
Qed.

(** C5: the scalar-or-list rule.  A bare string becomes the one-element
    list holding it; a list is returned as it is, the empty list included;
    an input that is neither a string nor a list is a type mismatch; and the
    rule applied to its own result changes nothing.  On a job: a [script]
    given as one string is held as a one-element list, an empty [extends]
    stays empty. *)
Theorem scalar_or_list_rule (fname : string) :
  (forall s, scalar_or_list fname (PyStr s) = Ok (PyList [PyStr s])) /\
  (forall items, scalar_or_list fname (PyList items) = Ok (PyList items)) /\
  scalar_or_list fname (PyList []) = Ok (PyList []) /\
  (forall v, isinstance_str v = false -> isinstance_list v = false ->
     exists accepted,
       scalar_or_list fname v = Err (TypeMismatch fname accepted)) /\
  (forall v w, scalar_or_list fname v = Ok w ->
     scalar_or_list fname w = Ok w /\ isinstance_list w = true) /\
  Job.GitLabCIJob {[ "script" := PyStr "echo hi" ]} =
    Ok {| declared := {[ "script" := PyList [PyStr "echo hi"] ]};
          extension := ∅ |} /\
  Job.GitLabCIJob {[ "extends" := PyList []; "tags" := PyStr "docker" ]} =
    Ok {| declared := {[ "extends" := PyList [];
                         "tags" := PyList [PyStr "docker"] ]};
          extension := ∅ |}.
Proof.
  split; [reflexivity |]. split; [reflexivity |]. split; [reflexivity |].
  split; [| split; [| split; vm_compute; reflexivity]].
  - intros v Hs Hl. destruct v; simpl in *; try discriminate; eauto.
  - intros v w Hv.
    destruct v; simpl in *; try discriminate; injection Hv as <-; auto.
Qed.

Lemma scalar_or_list_rule_witness :
  (exists accepted,
     scalar_or_list "script" (PyInt 3) = Err (TypeMismatch "script" accepted)) /\
  scalar_or_list "script" (PyList [PyStr "a"]) = Ok (PyList [PyStr "a"]).
Proof.
  destruct (scalar_or_list_rule "script") as (Hs & _ & _ & Hother & Hidem & _).
  split.
  - apply Hother; reflexivity.
  - apply (Hidem (PyStr "a")). apply Hs.
Defined.

End CoercionFacts.

(** ** The cache key *)

Module CacheFacts.
Import Entity Coercion Cache.

(** C6: constructing a cache key.  With both [key] and [files] given the
    construction is refused with the "cannot specify both" problem; with
    neither it is refused; with [prefix] but no [files] it is refused; with
    [key] alone, or with [files] (with or without [prefix]), it succeeds and
    the entity holds what was given, a single path as a one-element list. *)
Theorem cache_key_construction :
  (forall k fs p,
     GitLabCICacheKey (Some k) (Some fs) p
     = Err [InvariantViolation both_message]) /\
  has_problem "cannot specify both" [InvariantViolation both_message] = true /\
  (forall p, is_ok (GitLabCICacheKey None None p) = false) /\
  (forall k p, is_ok (GitLabCICacheKey k None (Some p)) = false) /\
  (forall k, exists e,
     GitLabCICacheKey (Some k) None None = Ok e /\
     declared e !! "key" = Some (PyStr k) /\
     declared e !! "files" = None /\
     declared e !! "prefix" = None) /\
  (forall fs p, exists e,
     GitLabCICacheKey None (Some fs) p = Ok e /\
     declared e !! "key" = None /\
     declared e !! "files" = Some (PyList (PyStr <$> files_list fs)) /\
     declared e !! "prefix" = PyStr <$> p).
Proof.
  split; [| split; [| split; [| split; [| split]]]].
  - intros k fs [p|]; destruct fs; vm_compute; reflexivity.
  - vm_compute; reflexivity.
  - intros [p|]; vm_compute; reflexivity.
  - intros [k|] p; vm_compute; reflexivity.
  - intros k. eexists. split; [vm_compute; reflexivity |].
    repeat split; vm_compute; reflexivity.
  - intros fs p. destruct fs, p; eexists;
      (split; [vm_compute; reflexivity |]);
      repeat split; vm_compute; reflexivity.
Qed.

End CacheFacts.

(** ** The job *)

Module JobFacts.
Import Entity Coercion Job EntityFacts CoercionFacts.

Lemma string_field_stable fname : stable (optional fname string_field).
Proof.
  intros v w _. destruct v; simpl; try discriminate;
    intros [= <-]; split; (discriminate || reflexivity).
Qed.

Lemma when_field_stable fname : stable (optional fname when_field).
Proof.
  intros v w _. destruct v; simpl; try discriminate.
  destruct (bool_decide (s ∈ when_values)) eqn:Hs; [| discriminate].
  intros [= <-]. split; [discriminate |]. simpl. now rewrite Hs.
Qed.

Lemma retry_field_stable fname : stable (optional fname retry_field).
Proof.
  intros v w Hv Hc. assert (w = v) as ->.
  { revert Hc. unfold optional, retry_field; simpl.
    destruct v; try discriminate.
    - destruct (retry_count_ok (PyInt n)); congruence.
    - destruct (entries !! "max") as [mx|];
        [destruct (retry_count_ok mx) |]; congruence. }
  auto.
Qed.

Lemma parallel_field_stable fname : stable (optional fname parallel_field).
Proof.
  intros v w Hv Hc. assert (w = v) as ->.
  { revert Hc. unfold optional, parallel_field; simpl.
    destruct (Parallel.parse_parallel v); congruence. }
  auto.
Qed.

Lemma trigger_field_stable fname : stable (optional fname trigger_field).
Proof.
  intros v w Hv Hc. assert (w = v) as ->.
  { revert Hc. unfold optional, trigger_field; simpl.
    destruct v; congruence. }
  auto.
Qed.

Lemma sub_entity_stable fname : stable (optional fname sub_entity).
Proof. intros v w Hv [= <-]. auto. Qed.

Lemma string_field_errors : errors_are_mismatches string_field.
Proof.
  intros fname v p. destruct v; simpl; try discriminate; intros [= <-]; eauto.
Qed.

Lemma when_field_errors : errors_are_mismatches when_field.
Proof.
  intros fname v p. destruct v; simpl; try (intros [= <-]; eauto).
  destruct (bool_decide (s ∈ when_values)); [discriminate |].
  intros [= <-]; eauto.
Qed.

Lemma retry_field_errors : errors_are_mismatches retry_field.
Proof.
  intros fname v p. unfold retry_field. destruct v; try (intros [= <-]; eauto).
  - destruct (retry_count_ok (PyInt n)); [discriminate |]. intros [= <-]; eauto.
  - destruct (entries !! "max") as [mx|]; [| discriminate].
    destruct (retry_count_ok mx); [discriminate |]. intros [= <-]; eauto.
Qed.

Lemma parallel_field_errors : errors_are_mismatches parallel_field.
Proof.
  intros fname v p. unfold parallel_field.
  destruct (Parallel.parse_parallel v); [discriminate |]. intros [= <-]; eauto.
Qed.

Lemma trigger_field_errors : errors_are_mismatches trigger_field.
Proof.
  intros fname v p. destruct v; simpl; try discriminate; intros [= <-]; eauto.
Qed.

Lemma sub_entity_errors : errors_are_mismatches sub_entity.
Proof. intros fname v p. discriminate. Qed.

Create HintDb job.

#[local] Hint Resolve scalar_or_list_stable string_field_stable
  when_field_stable retry_field_stable parallel_field_stable
  trigger_field_stable sub_entity_stable : job.
#[local] Hint Resolve scalar_or_list_errors string_field_errors
  when_field_errors retry_field_errors parallel_field_errors
  trigger_field_errors sub_entity_errors optional_plain : job.

Lemma job_fields_stable : Forall stable job_fields.
Proof.
  unfold job_fields.
  repeat (apply Forall_cons_2; [solve [auto with job] |]). apply Forall_nil_2.
Qed.

Lemma job_fields_plain : Forall plain_optional job_fields.
Proof.
  unfold job_fields.
  repeat (apply Forall_cons_2; [solve [auto with job] |]). apply Forall_nil_2.
Qed.

Lemma job_names_distinct : NoDup (all_names job_schema).
Proof. apply (bool_decide_unpack _). vm_compute. exact I. Qed.

Lemma job_well_formed : well_formed job_schema.
Proof.
  split; [exact job_names_distinct |].
  intros f Hf. exact (proj1 (Forall_forall _ _) job_fields_stable f Hf).
Qed.

Lemma job_raw_lookup (block : gmap string PyVal) (f : field) :
  f ∈ job_fields -> raw_lookup f block = block !! name f.
Proof.
  intros Hf.
  destruct (proj1 (Forall_forall _ _) job_fields_plain f Hf) as (Ha & _).
  unfold raw_lookup, wire. rewrite Ha. simpl.
  now destruct (block !! name f).
Qed.

(** A field that is absent from the block is absent from the job. *)
Lemma job_absent_field (block : gmap string PyVal) (job : entity) (k : string) :
  GitLabCIJob block = Ok job -> block !! k = None ->
  declared job !! k = None.
Proof.
  intros Hjob Hk.
  destruct (parsed_fields job_schema block job Hjob) as (Hpf & _ & _).
  destruct (declared job !! k) as [w|] eqn:Hd; [| done].
  assert (Hd' : (parse_fields job_fields block).2 !! k = Some w).
  { change (fields job_schema) with job_fields in Hpf. now rewrite Hpf. }
  apply parse_fields_declared in Hd' as (f & Hf & <- & Hr).
  destruct (proj1 (Forall_forall _ _) job_fields_plain f Hf)
    as (_ & Hreq & _).
  apply field_result_optional in Hr as (v & _ & Hv & _); [| done].
  rewrite job_raw_lookup in Hv by done. congruence.
Qed.


Lemma template_block_shapes :
  Forall (fun f => forall v, template_block !! name f = Some v ->
                     v <> PyNone -> is_ok (check f v) = true) job_fields.
Proof.
  unfold job_fields.
  repeat (apply Forall_cons_2;
          [intros v Hv _; vm_compute in Hv;
           first [discriminate | injection Hv as <-; vm_compute; reflexivity]
          |]).
  apply Forall_nil_2.
Qed.


Lemma sample_block_parses : GitLabCIJob sample_block = Ok sample_job.
Proof. vm_compute. reflexivity. Qed.


End JobFacts.

(** ** The reference engine *)

Module ReferenceFacts.
Import Reference.

(** Induction over a tree reaches the items of a sequence and the values
    of a mapping. *)
Section TreeInduction.
Context {R : Type} (P : tree R -> Prop).
Hypothesis Hscalar : forall s, P (Scalar s).
Hypothesis Hseq : forall items, Forall P items -> P (Seq items).
Hypothesis Hmap :
  forall entries, Forall (fun kv => P kv.2) entries -> P (Map entries).
Hypothesis Htagged : forall r, P (Tagged r).

Lemma tree_nested_ind (t : tree R) : P t.
Proof.
  revert t. fix IH 1. intros [s | items | entries | r].
  - apply Hscalar.
  - apply Hseq. induction items as [| x items IHitems].
    + apply Forall_nil_2.
    + apply Forall_cons_2; [apply IH | exact IHitems].
  - apply Hmap. induction entries as [| [k v] entries IHentries].
    + apply Forall_nil_2.
    + apply Forall_cons_2; [apply IH | exact IHentries].
  - apply Htagged.
Qed.
End TreeInduction.

(** *** Placeholders and tags *)

Section Convert.
Context {R R' : Type} (f : R -> option R') (g : R' -> R).
Hypothesis Hfg : forall r, f (g r) = Some r.
Hypothesis Hgf : forall r r', f r = Some r' -> g r' = r.

Lemma convert_retag (t : tree R') : convert f (retag_with g t) = Some t.
Proof.
  induction t as [s | items IH | entries IH | r] using tree_nested_ind;
    simpl.
  - reflexivity.
  - rewrite mapM_fmap_Forall_Some; [reflexivity | exact IH].
  - rewrite mapM_fmap_Forall_Some; [reflexivity |].
    eapply Forall_impl; [exact IH |].
    intros [k v] Hv. simpl in *. now rewrite Hv.
  - now rewrite Hfg.
Qed.

Lemma retag_convert (t : tree R) (t' : tree R') :
  convert f t = Some t' -> retag_with g t' = t.
Proof.
  revert t'.
  induction t as [s | items IH | entries IH | r] using tree_nested_ind;
    simpl; intros t' Ht.
  - now injection Ht as <-.
  - destruct (mapM (convert f) items) as [items'|] eqn:Hm;
      [| discriminate].
    injection Ht as <-. simpl. f_equal.
    apply mapM_Some_1 in Hm.
    induction Hm as [| x y l k Hxy Hlk IHl]; [reflexivity |].
    apply Forall_cons in IH as [Hx Hl].
    simpl. f_equal; auto.
  - match type of Ht with
    | context [mapM ?h entries] =>
        destruct (mapM h entries) as [entries'|] eqn:Hm; [| discriminate]
    end.
    injection Ht as <-. simpl. f_equal.
    apply mapM_Some_1 in Hm.
    induction Hm as [| [k v] [k' v'] l l' Hxy Hlk IHl]; [reflexivity |].
    apply Forall_cons in IH as [Hx Hl]. simpl in Hx.
    destruct (convert f v) as [w|] eqn:Hw; [| discriminate].
    injection Hxy as <- <-.
    simpl. f_equal; [f_equal |]; auto.
  - destruct (f r) as [r'|] eqn:Hr; [| discriminate].
    injection Ht as <-. simpl. f_equal. now apply Hgf.
Qed.
End Convert.

Lemma refs_of_retag {R R'} (g : R' -> R) (t : tree R') :
  refs_of (retag_with g t) = g <$> refs_of t.
Proof.
  induction t as [s | items IH | entries IH | r] using tree_nested_ind;
    simpl; try reflexivity.
  - induction IH as [| x l Hx Hl IHl]; [reflexivity |].
    simpl. rewrite fmap_app. now f_equal.
  - induction IH as [| [k v] l Hx Hl IHl]; [reflexivity |].
    simpl in *. rewrite fmap_app. now f_equal.
Qed.

Lemma placeholder_payload (r : GitLabReference) :
  placeholder_of (payload_of r) = Some r.
Proof. now destruct r. Qed.

Lemma payload_placeholder (payload : list string) (r : GitLabReference) :
  placeholder_of payload = Some r -> payload_of r = payload.
Proof. destruct payload; [discriminate |]. now intros [= <-]. Qed.

Lemma to_placeholders_retag (t : Loaded) : to_placeholders (retag t) = Some t.
Proof. apply convert_retag, placeholder_payload. Qed.

Lemma retag_to_placeholders (raw : RawNode) (t : Loaded) :
  to_placeholders raw = Some t -> retag t = raw.
Proof. apply retag_convert, payload_placeholder. Qed.

Lemma to_placeholders_total (raw : RawNode) :
  Forall (fun payload => payload <> []) (refs_of raw) ->
  is_Some (to_placeholders raw).
Proof.
  unfold to_placeholders.
  induction raw as [s | items IH | entries IH | r] using tree_nested_ind;
    simpl; intros Hrefs.
  - eauto.
  - apply fmap_is_Some, mapM_is_Some_2.
    induction IH as [| x l Hx Hl IHl]; [constructor |].
    simpl in Hrefs. apply Forall_app in Hrefs as [Hrx Hrl].
    constructor; auto.
  - apply fmap_is_Some, mapM_is_Some_2.
    induction IH as [| [k v] l Hx Hl IHl]; [constructor |].
    simpl in Hrefs, Hx. apply Forall_app in Hrefs as [Hrx Hrl].
    constructor; auto.
    simpl. now apply fmap_is_Some, Hx.
  - apply fmap_is_Some. apply Forall_cons in Hrefs as [Hr _].
    destruct r; [congruence | simpl; eauto].
Qed.



(** *** Eager resolution *)

Lemma each_finishes {A B} (f : A -> outcome B) (l : list A) :
  Forall (fun x => f x <> OutOfFuel) l -> each f l <> OutOfFuel.
Proof.
  induction 1 as [| x l Hx Hl IH]; simpl; [discriminate |].
  destruct (f x); simpl; try congruence.
  destruct (each f l); simpl; congruence.
Qed.

Lemma each_resolved {A B} (f : A -> outcome B) (l : list A) (k : list B) :
  each f l = Resolved k -> Forall2 (fun x y => f x = Resolved y) l k.
Proof.
  revert k. induction l as [| x l IH]; simpl; intros k.
  - intros [= <-]. constructor.
  - destruct (f x) as [y| |] eqn:Hx; simpl; try discriminate.
    destruct (each f l) as [ys| |]; simpl; try discriminate.
    intros [= <-]. constructor; auto.
Qed.

Lemma each_failed {A B} (f : A -> outcome B) (l : list A) (e : ReferenceError) :
  each f l = Failed e -> exists x, x ∈ l /\ f x = Failed e.
Proof.
  induction l as [| x l IH]; simpl; [discriminate |].
  destruct (f x) as [y| e' |] eqn:Hx; simpl; try discriminate.
  - destruct (each f l) as [ys| e' |]; simpl; try discriminate.
    intros [= <-]. destruct IH as (x' & Hin & Hx'); [reflexivity |].
    exists x'. split; [now right | exact Hx'].
  - intros [= <-]. exists x. split; [left | exact Hx].
Qed.

Lemma each_agree {A B} (f f' : A -> outcome B) (l : list A) :
  Forall (fun x => f x <> OutOfFuel -> f' x = f x) l ->
  each f l <> OutOfFuel -> each f' l = each f l.
Proof.
  induction 1 as [| x l Hx Hl IH]; simpl; [reflexivity |].
  destruct (f x) as [y| e |] eqn:Hfx; simpl.
  - rewrite Hx by discriminate. simpl.
    destruct (each f l) as [ys| e |] eqn:Hfl; simpl.
    + intros _. rewrite IH by discriminate. reflexivity.
    + intros _. rewrite IH by discriminate. reflexivity.
    + congruence.
  - intros _. rewrite Hx by discriminate. reflexivity.
  - congruence.
Qed.

Lemma outcome_map_finishes {A B} (f : A -> B) (o : outcome A) :
  o <> OutOfFuel -> outcome_map f o <> OutOfFuel.
Proof. destruct o; simpl; congruence. Qed.

Lemma outcome_map_unfinished {A B} (f : A -> B) (o : outcome A) :
  outcome_map f o <> OutOfFuel -> o <> OutOfFuel.
Proof. destruct o; simpl; congruence. Qed.

Lemma outcome_map_resolved {A B} (f : A -> B) (o : outcome A) (b : B) :
  outcome_map f o = Resolved b -> exists a, o = Resolved a /\ b = f a.
Proof. destruct o; simpl; try discriminate. intros [= <-]. eauto. Qed.

Lemma outcome_map_failed {A B} (f : A -> B) (o : outcome A)
    (e : ReferenceError) :
  outcome_map f o = Failed e -> o = Failed e.
Proof. destruct o; simpl; congruence. Qed.

Lemma contribution_refs (x t' : Loaded) :
  flat_map refs_of (contribution x t') = refs_of t'.
Proof.
  destruct x, t'; simpl; rewrite ?app_nil_r; reflexivity.
Qed.

Lemma flat_map_concat {A B} (f : A -> list B) (parts : list (list A)) :
  flat_map f (concat parts) = concat (map (flat_map f) parts).
Proof.
  induction parts as [| p parts IH]; simpl; [reflexivity |].
  now rewrite flat_map_app, IH.
Qed.

Lemma refs_member_item (items : list Loaded) (r : GitLabReference) :
  r ∈ flat_map refs_of items <-> exists x, x ∈ items /\ r ∈ refs_of x.
Proof.
  rewrite list_elem_of_In, in_flat_map.
  split; intros (x & Hx & Hr); exists x; split;
    try (now apply list_elem_of_In).
Qed.

Lemma refs_member_entry (entries : list (string * Loaded))
    (r : GitLabReference) :
  r ∈ flat_map (fun kv => refs_of kv.2) entries <->
  exists kv, kv ∈ entries /\ r ∈ refs_of kv.2.
Proof.
  rewrite list_elem_of_In, in_flat_map.
  split; intros (x & Hx & Hr); exists x; split;
    try (now apply list_elem_of_In).
Qed.

Section Walk.
Variable on_ref : GitLabReference -> outcome Loaded.

Lemma walk_finishes (t : Loaded) :
  (forall r, r ∈ refs_of t -> on_ref r <> OutOfFuel) ->
  walk on_ref t <> OutOfFuel.
Proof.
  induction t as [s | items IH | entries IH | r] using tree_nested_ind;
    simpl; intros Hrefs.
  - discriminate.
  - apply outcome_map_finishes, each_finishes, Forall_forall.
    intros x Hx. apply outcome_map_finishes.
    apply (proj1 (Forall_forall _ _) IH x Hx).
    intros r Hr. apply Hrefs, refs_member_item. eauto.
  - apply outcome_map_finishes, each_finishes, Forall_forall.
    intros [k v] Hkv. apply outcome_map_finishes.
    apply (proj1 (Forall_forall _ _) IH (k, v) Hkv).
    intros r Hr. apply Hrefs, refs_member_entry. exists (k, v). auto.
  - apply Hrefs. left.
Qed.

Lemma walk_failed (t : Loaded) (e : ReferenceError) :
  walk on_ref t = Failed e -> exists r, r ∈ refs_of t /\ on_ref r = Failed e.
Proof.
  induction t as [s | items IH | entries IH | r] using tree_nested_ind;
    simpl; intros Hw.
  - discriminate.
  - apply outcome_map_failed, each_failed in Hw as (x & Hin & Hx).
    apply outcome_map_failed in Hx.
    apply (proj1 (Forall_forall _ _) IH x Hin) in Hx as (r & Hr & He).
    exists r. split; [| exact He]. apply refs_member_item. eauto.
  - apply outcome_map_failed, each_failed in Hw as ([k v] & Hin & Hx).
    apply outcome_map_failed in Hx.
    apply (proj1 (Forall_forall _ _) IH (k, v) Hin) in Hx as (r & Hr & He).
    exists r. split; [| exact He]. apply refs_member_entry.
    exists (k, v). auto.
  - exists r. split; [left | exact Hw].
Qed.

(** A walk that comes out has resolved every reference of the tree. *)
Lemma walk_resolved_refs (t t' : Loaded) (r : GitLabReference) :
  walk on_ref t = Resolved t' -> r ∈ refs_of t ->
  exists v, on_ref r = Resolved v.
Proof.
  revert t'.
  induction t as [s | items IH | entries IH | r0] using tree_nested_ind;
    simpl; intros t' Hw Hr.
  - inversion Hr.
  - apply outcome_map_resolved in Hw as (parts & Hw & _).
    apply each_resolved in Hw.
    apply refs_member_item in Hr as (x & Hx & Hr).
    apply list_elem_of_lookup in Hx as [i Hi].
    destruct (Forall2_lookup_l _ _ _ _ _ Hw Hi) as (part & _ & Hpart).
    apply outcome_map_resolved in Hpart as (y & Hy & _).
    apply (proj1 (Forall_forall _ _) IH x
             (proj2 (list_elem_of_lookup _ _) (ex_intro _ i Hi)) y Hy Hr).
  - apply outcome_map_resolved in Hw as (entries' & Hw & _).
    apply each_resolved in Hw.
    apply refs_member_entry in Hr as ([k v] & Hx & Hr).
    apply list_elem_of_lookup in Hx as [i Hi].
    destruct (Forall2_lookup_l _ _ _ _ _ Hw Hi) as (kv' & _ & Hkv).
    apply outcome_map_resolved in Hkv as (y & Hy & _).
    apply (proj1 (Forall_forall _ _) IH (k, v)
             (proj2 (list_elem_of_lookup _ _) (ex_intro _ i Hi)) y Hy Hr).
  - apply list_elem_of_singleton in Hr as ->. eauto.
Qed.

Lemma walk_ref_free (t t' : Loaded) :
  (forall r v, r ∈ refs_of t -> on_ref r = Resolved v -> ref_free v) ->
  walk on_ref t = Resolved t' -> ref_free t'.
Proof.
  revert t'.
  induction t as [s | items IH | entries IH | r] using tree_nested_ind;
    simpl; intros t' Hrefs Hw.
  - now injection Hw as <-.
  - apply outcome_map_resolved in Hw as (parts & Hw & ->).
    apply each_resolved in Hw. unfold ref_free. simpl.
    rewrite flat_map_concat.
    induction Hw as [| x part l k Hxy Hlk IHl]; [reflexivity |].
    apply Forall_cons in IH as [Hx Hl]. simpl in Hrefs |- *.
    apply outcome_map_resolved in Hxy as (y & Hy & ->).
    rewrite contribution_refs.
    assert (Hfree : refs_of y = []).
    { apply (Hx y); [| exact Hy].
      intros r v Hr. apply Hrefs, elem_of_app. now left. }
    assert (Hk : concat (map (flat_map refs_of) k) = []).
    { apply IHl; [exact Hl |].
      intros r v Hr. apply Hrefs, elem_of_app. now right. }
    now rewrite Hfree, Hk.
  - apply outcome_map_resolved in Hw as (entries' & Hw & ->).
    apply each_resolved in Hw. unfold ref_free. simpl.
    induction Hw as [| [k v] [k' v'] l l' Hxy Hlk IHl]; [reflexivity |].
    apply Forall_cons in IH as [Hx Hl]. simpl in Hrefs, Hx |- *.
    apply outcome_map_resolved in Hxy as (w & Hw & Heq).
    injection Heq as -> ->.
    assert (Hy : refs_of w = []).
    { apply (Hx w); [| exact Hw].
      intros r u Hr. apply Hrefs, elem_of_app. now left. }
    assert (Hk : flat_map (fun kv => refs_of kv.2) l' = []).
    { apply IHl; [exact Hl |].
      intros r u Hr. apply Hrefs, elem_of_app. now right. }
    now rewrite Hy, Hk.
  - apply (Hrefs r t'); [left | exact Hw].
Qed.

(** A walk whose references are replaced by their expansions gives the
    expansion of the tree. *)
Lemma walk_expands (top : list (string * Loaded)) (t t' : Loaded) :
  (forall r v, r ∈ refs_of t -> on_ref r = Resolved v ->
     expands top (Tagged r) v) ->
  walk on_ref t = Resolved t' -> expands top t t'.
Proof.
  revert t'.
  induction t as [s | items IH | entries IH | r] using tree_nested_ind;
    simpl; intros t' Hrefs Hw.
  - injection Hw as <-. constructor.
  - apply outcome_map_resolved in Hw as (parts & Hw & ->).
    apply each_resolved in Hw. apply expands_seq.
    induction Hw as [| x part l k Hxy Hlk IHl]; [constructor |].
    apply Forall_cons in IH as [Hx Hl]. simpl in Hrefs |- *.
    apply outcome_map_resolved in Hxy as (y & Hy & ->).
    constructor.
    + apply Hx; [| exact Hy].
      intros r v Hr. apply Hrefs, elem_of_app. now left.
    + apply IHl; [exact Hl |].
      intros r v Hr. apply Hrefs, elem_of_app. now right.
  - apply outcome_map_resolved in Hw as (entries' & Hw & ->).
    apply each_resolved in Hw. apply expands_map.
    induction Hw as [| [k v] [k' v'] l l' Hxy Hlk IHl]; [constructor |].
    apply Forall_cons in IH as [Hx Hl]. simpl in Hrefs, Hx.
    apply outcome_map_resolved in Hxy as (w & Hw & Heq).
    injection Heq as -> ->.
    constructor.
    + apply Hx; [| exact Hw].
      intros r u Hr. apply Hrefs, elem_of_app. now left.
    + apply IHl; [exact Hl |].
      intros r u Hr. apply Hrefs, elem_of_app. now right.
  - apply (Hrefs r t'); [left | exact Hw].
Qed.
End Walk.

Lemma walk_agree (on_ref on_ref' : GitLabReference -> outcome Loaded)
    (t : Loaded) :
  (forall r, r ∈ refs_of t -> on_ref r <> OutOfFuel -> on_ref' r = on_ref r) ->
  walk on_ref t <> OutOfFuel -> walk on_ref' t = walk on_ref t.
Proof.
  induction t as [s | items IH | entries IH | r] using tree_nested_ind;
    simpl; intros Hrefs Hfin.
  - reflexivity.
  - apply outcome_map_unfinished in Hfin.
    match goal with
    | |- outcome_map ?h (each ?g' items) = outcome_map ?h (each ?g items) =>
        rewrite (each_agree g g'); [reflexivity | | exact Hfin]
    end.
    apply Forall_forall. intros x Hx Hfx.
    apply outcome_map_unfinished in Hfx.
    rewrite (proj1 (Forall_forall _ _) IH x Hx); [reflexivity | | exact Hfx].
    intros r Hr. apply Hrefs, refs_member_item. eauto.
  - apply outcome_map_unfinished in Hfin.
    match goal with
    | |- outcome_map Map (each ?g' entries) = outcome_map Map (each ?g entries) =>
        rewrite (each_agree g g'); [reflexivity | | exact Hfin]
    end.
    apply Forall_forall. intros [k v] Hkv Hfx.
    apply outcome_map_unfinished in Hfx.
    pose proof (proj1 (Forall_forall _ _) IH (k, v) Hkv) as Hv.
    simpl in Hv. rewrite Hv; [reflexivity | | exact Hfx].
    intros r Hr. apply Hrefs, refs_member_entry. exists (k, v). auto.
  - apply Hrefs; [left | exact Hfin].
Qed.

(** The references of a value found by a lookup are references of the
    tree it was found in. *)
Lemma assoc_refs (k : string) (entries : list (string * Loaded)) (v : Loaded) :
  assoc k entries = Some v ->
  refs_of v ⊆ flat_map (fun kv => refs_of kv.2) entries.
Proof.
  induction entries as [| [k' v'] entries IH]; simpl; [discriminate |].
  destruct (decide (k = k')).
  - intros [= ->] r Hr. apply elem_of_app. now left.
  - intros Hv r Hr. apply elem_of_app. right. now apply IH.
Qed.

Lemma descend_refs (path : list string) (t v : Loaded) :
  descend path t = Some v -> refs_of v ⊆ refs_of t.
Proof.
  revert t. induction path as [| seg path IH]; simpl; intros t.
  - now intros [= ->].
  - destruct t as [| | entries |]; try discriminate.
    destruct (assoc seg entries) as [u|] eqn:Hu; [| discriminate].
    intros Hv. etransitivity; [exact (IH u Hv) |].
    exact (assoc_refs seg entries u Hu).
Qed.

Lemma top_level_refs (doc : Loaded) (b : string) (block : Loaded) :
  assoc b (top_level doc) = Some block -> refs_of block ⊆ refs_of doc.
Proof.
  destruct doc as [| | entries |]; simpl; try discriminate.
  apply assoc_refs.
Qed.

Lemma target_refs (doc : Loaded) (r : GitLabReference) (v : Loaded) :
  target (top_level doc) r = Some v -> refs_of v ⊆ refs_of doc.
Proof.
  unfold target.
  destruct (assoc (block_name r) (top_level doc)) as [block|] eqn:Hb;
    [| discriminate].
  intros Hv. etransitivity; [exact (descend_refs _ _ _ Hv) |].
  exact (top_level_refs _ _ _ Hb).
Qed.

(** Every reference reached from a reference of the document is written
    in the document. *)
Lemma reach_in_doc (doc : Loaded) (r0 r : GitLabReference) :
  rtc (points_to (top_level doc)) r0 r ->
  r0 ∈ refs_of doc -> r ∈ refs_of doc.
Proof.
  induction 1 as [| x y z (v & Hv & Hy) _ IH]; [auto |].
  intros _. apply IH. exact (target_refs _ _ _ Hv _ Hy).
Qed.

Lemma target_found (top : list (string * Loaded)) (r : GitLabReference)
    (block v : Loaded) :
  assoc (block_name r) top = Some block ->
  descend (field_path r) block = Some v ->
  target top r = Some v.
Proof. unfold target. now intros -> ->. Qed.

(** The chain never repeats a reference and holds references of the
    document only, so it is no longer than the document has references. *)
Lemma resolve_in_finishes (doc : Loaded) (fuel : nat)
    (chain : list GitLabReference) (t : Loaded) :
  NoDup chain ->
  chain ⊆ refs_of doc ->
  refs_of t ⊆ refs_of doc ->
  (length (refs_of doc) < fuel + length chain)%nat ->
  resolve_in fuel (top_level doc) chain t <> OutOfFuel.
Proof.
  revert chain t.
  induction fuel as [| fuel IH]; intros chain t Hnd Hchain Ht Hlen.
  - assert (length chain <= length (refs_of doc))%nat
      by (apply submseteq_length, NoDup_submseteq; auto).
    lia.
  - simpl. apply walk_finishes. intros r Hr.
    at_reference r chain (top_level doc) Hin Hb Hv; try discriminate.
    apply IH.
    + now constructor.
    + intros r' Hr'. apply elem_of_cons in Hr' as [->|]; auto.
    + exact (target_refs _ _ _ (target_found _ _ _ _ Hb Hv)).
    + simpl. lia.
Qed.

Lemma resolve_references_finishes (doc : Loaded) :
  resolve_references doc <> OutOfFuel.
Proof.
  unfold resolve_references. apply resolve_in_finishes.
  - constructor.
  - intros r Hr. inversion Hr.
  - reflexivity.
  - simpl. lia.
Qed.

(** A larger budget does not change an answer. *)
Lemma resolve_in_more_fuel (top : list (string * Loaded)) (fuel extra : nat)
    (chain : list GitLabReference) (t : Loaded) :
  resolve_in fuel top chain t <> OutOfFuel ->
  resolve_in (fuel + extra) top chain t = resolve_in fuel top chain t.
Proof.
  revert chain t.
  induction fuel as [| fuel IH]; intros chain t; simpl; [congruence |].
  apply walk_agree. intros r _.
  at_reference r chain top Hin Hb Hv; try reflexivity.
  apply IH.
Qed.

Lemma resolve_in_ref_free (top : list (string * Loaded)) (fuel : nat)
    (chain : list GitLabReference) (t t' : Loaded) :
  resolve_in fuel top chain t = Resolved t' -> ref_free t'.
Proof.
  revert chain t t'.
  induction fuel as [| fuel IH]; intros chain t t'; simpl; [discriminate |].
  apply walk_ref_free. intros r v _.
  at_reference r chain top Hin Hb Hv; try discriminate.
  apply IH.
Qed.

(** What comes out is the expansion of what went in. *)
Lemma resolve_in_expands (top : list (string * Loaded)) (fuel : nat)
    (chain : list GitLabReference) (t t' : Loaded) :
  resolve_in fuel top chain t = Resolved t' -> expands top t t'.
Proof.
  revert chain t t'.
  induction fuel as [| fuel IH]; intros chain t t'; simpl; [discriminate |].
  apply walk_expands. intros r v _.
  at_reference r chain top Hin Hb Hv; try discriminate.
  intros Hr. apply expands_tagged with (v := v0).
  - exact (target_found _ _ _ _ Hb Hv).
  - exact (IH _ _ _ Hr).
Qed.

(** A tree has one expansion at most. *)
Lemma expands_functional (top : list (string * Loaded)) (t a : Loaded) :
  expands top t a -> forall b, expands top t b -> a = b.
Proof.
  intros H.
  induction H using expands_mind with
    (P0 := fun items items' _ =>
             forall k, expands_items top items k -> items' = k)
    (P1 := fun entries entries' _ =>
             forall k, expands_entries top entries k -> entries' = k).
  - intros b Hb. now inversion Hb.
  - intros b Hb. inversion Hb; subst. f_equal. auto.
  - intros b Hb. inversion Hb; subst. f_equal. auto.
  - intros b Hb. inversion Hb; subst.
    match goal with
    | H1 : target top r = Some ?x, H2 : target top r = Some ?y |- _ =>
        assert (x = y) by congruence; subst
    end. auto.
  - intros k Hk. now inversion Hk.
  - intros k Hk. inversion Hk; subst.
    match goal with
    | H1 : expands top x ?u, H2 : expands_items top rest ?w |- _ =>
        rewrite (IHexpands _ H1), (IHexpands0 _ H2)
    end. reflexivity.
  - intros k Hk. now inversion Hk.
  - intros k0 Hk. inversion Hk; subst. repeat f_equal; auto.
Qed.

(** *** References that cannot be found *)

Lemma resolve_in_unknown (top : list (string * Loaded)) (fuel : nat)
    (chain : list GitLabReference) (t : Loaded) (e : ReferenceError) :
  resolve_in fuel top chain t = Failed e ->
  match e with
  | UnknownBlock r =>
      assoc (block_name r) top = None /\
      exists r0, r0 ∈ refs_of t /\ rtc (points_to top) r0 r
  | UnknownField r =>
      (exists block, assoc (block_name r) top = Some block /\
                     descend (field_path r) block = None) /\
      exists r0, r0 ∈ refs_of t /\ rtc (points_to top) r0 r
  | CircularReference _ => True
  end.
Proof.
  revert chain t.
  induction fuel as [| fuel IH]; intros chain t; simpl; [discriminate |].
  intros Hw. apply walk_failed in Hw as (r & Hr & He).
  at_reference r chain top Hin Hb Hv.
  - now injection He as <-.
  - apply IH in He. destruct e as [r' | r' |]; [| | exact I].
    + destruct He as (Hnone & r1 & Hr1 & Hreach). split; [exact Hnone |].
      exists r. split; [exact Hr |].
      apply rtc_l with r1; [| exact Hreach].
      exists v. split; [exact (target_found _ _ _ _ Hb Hv) | exact Hr1].
    + destruct He as (Hnone & r1 & Hr1 & Hreach). split; [exact Hnone |].
      exists r. split; [exact Hr |].
      apply rtc_l with r1; [| exact Hreach].
      exists v. split; [exact (target_found _ _ _ _ Hb Hv) | exact Hr1].
  - injection He as <-. split; [eauto |]. exists r. split; [exact Hr | constructor].
  - injection He as <-. split; [exact Hb |]. exists r. split; [exact Hr | constructor].
Qed.

(** *** Chains of references *)

Lemma follows_app (top : list (string * Loaded))
    (l1 l2 : list GitLabReference) (a : GitLabReference) :
  follows top (l1 ++ a :: l2) <->
  follows top (l1 ++ [a]) /\ follows top (a :: l2).
Proof.
  induction l1 as [| x l1 IH].
  - simpl. tauto.
  - destruct l1 as [| y l1].
    + simpl. tauto.
    + change (points_to top x y /\ follows top ((y :: l1) ++ a :: l2) <->
              (points_to top x y /\ follows top ((y :: l1) ++ [a])) /\
              follows top (a :: l2)).
      tauto.
Qed.

Lemma follows_snoc (top : list (string * Loaded))
    (l : list GitLabReference) (a b : GitLabReference) :
  follows top (l ++ [a]) -> points_to top a b ->
  follows top ((l ++ [a]) ++ [b]).
Proof.
  intros Hl Hab. rewrite <- app_assoc. simpl.
  apply follows_app. split; [exact Hl |]. simpl. auto.
Qed.

Lemma follows_tc (top : list (string * Loaded))
    (l : list GitLabReference) (a b : GitLabReference) :
  follows top (a :: l ++ [b]) -> tc (points_to top) a b.
Proof.
  revert a. induction l as [| x l IH]; intros a.
  - simpl. intros [Hab _]. now apply tc_once.
  - change (points_to top a x /\ follows top (x :: l ++ [b]) ->
            tc (points_to top) a b).
    intros [Hax Hrest]. apply tc_l with x; auto.
Qed.

Lemma follows_rtc (top : list (string * Loaded))
    (l : list GitLabReference) (a b : GitLabReference) :
  follows top (a :: l) -> b ∈ a :: l -> rtc (points_to top) a b.
Proof.
  revert a. induction l as [| x l IH]; intros a Hf Hb.
  - apply elem_of_cons in Hb as [-> | Hb]; [constructor | inversion Hb].
  - apply elem_of_cons in Hb as [-> | Hb]; [constructor |].
    destruct Hf as [Hax Hrest]. apply rtc_l with x; auto.
Qed.

(** A circular reference error names the chain that was being followed:
    it starts at a reference of the tree, each reference points to the
    next, none is repeated before the last, and the last one is already
    on the chain. *)
Lemma resolve_in_circular (top : list (string * Loaded)) (fuel : nat)
    (chain : list GitLabReference) (t : Loaded)
    (cycle : list GitLabReference) :
  NoDup chain ->
  follows top (reverse chain) ->
  (forall h rest r, chain = h :: rest -> r ∈ refs_of t -> points_to top h r) ->
  resolve_in fuel top chain t = Failed (CircularReference cycle) ->
  exists mid r,
    cycle = (reverse chain ++ mid ++ [r])%list /\
    r ∈ (reverse chain ++ mid)%list /\
    NoDup (reverse chain ++ mid)%list /\
    follows top cycle /\
    exists r0 tail, (mid ++ [r])%list = r0 :: tail /\ r0 ∈ refs_of t.
Proof.
  revert chain t.
  induction fuel as [| fuel IH]; intros chain t Hnd Hchain Hhead; simpl;
    [discriminate |].
  intros Hw. apply walk_failed in Hw as (r & Hr & He).
  assert (Hext : follows top (reverse chain ++ [r])%list).
  { destruct chain as [| h rest]; [exact I |].
    rewrite reverse_cons in Hchain |- *.
    apply follows_snoc; [exact Hchain |].
    exact (Hhead h rest r eq_refl Hr). }
  at_reference r chain top Hin Hb Hv; try discriminate.
  - injection He as <-. exists [], r. simpl. rewrite app_nil_r.
    split; [reflexivity |].
    split; [now apply elem_of_reverse |].
    split; [now rewrite reverse_Permutation |].
    split; [exact Hext |].
    exists r, []. auto.
  - apply IH in He as (mid & r' & -> & Hin' & Hnd' & Hf & _).
    + rewrite reverse_cons, <- !app_assoc in *. simpl in *.
      exists (r :: mid), r'.
      split; [reflexivity |].
      split; [exact Hin' |].
      split; [exact Hnd' |].
      split; [exact Hf |].
      exists r, (mid ++ [r'])%list. auto.
    + now constructor.
    + now rewrite reverse_cons.
    + intros h rest r1 [= <- <-] Hr1. exists v.
      split; [exact (target_found _ _ _ _ Hb Hv) | exact Hr1].
Qed.

Lemma circular_has_cycle (doc : Loaded) (cycle : list GitLabReference) :
  resolve_references doc = Failed (CircularReference cycle) ->
  (exists r before,
     cycle = (before ++ [r])%list /\ r ∈ before /\ NoDup before) /\
  follows (top_level doc) cycle /\
  (exists r0 tail, cycle = r0 :: tail /\ r0 ∈ refs_of doc) /\
  has_cycle doc.
Proof.
  intros Hres. unfold resolve_references in Hres.
  apply resolve_in_circular in Hres
    as (mid & r & -> & Hin & Hnd & Hf & r0 & tail & Hc & Hr0);
    [| constructor | exact I | discriminate].
  simpl in *.
  split; [exists r, mid; auto |].
  split; [exact Hf |].
  split; [exists r0, tail; auto |].
  exists r0, r. split; [exact Hr0 |].
  rewrite Hc in Hf. split.
  - apply follows_rtc with tail; [exact Hf |].
    rewrite <- Hc. apply elem_of_app. now left.
  - rewrite <- Hc in Hf.
    apply list_elem_of_split in Hin as (l1 & l2 & ->).
    rewrite <- app_assoc in Hf. simpl in Hf.
    apply follows_app in Hf as [_ Hf].
    exact (follows_tc _ _ _ _ Hf).
Qed.

(** *** Trees that resolve *)

(** While a value resolves, nothing reached from its references is on the
    chain. *)
Lemma resolved_off_chain (top : list (string * Loaded)) (fuel : nat)
    (chain : list GitLabReference) (t t' : Loaded)
    (r r' : GitLabReference) :
  resolve_in fuel top chain t = Resolved t' ->
  r ∈ refs_of t -> rtc (points_to top) r r' -> r' ∉ chain.
Proof.
  revert chain t t' r.
  induction fuel as [| fuel IH]; intros chain t t' r; simpl; [discriminate |].
  intros Hw Hr Hreach.
  destruct (walk_resolved_refs _ _ _ _ Hw Hr) as [u Hu].
  at_reference r chain top Hin Hb Hv; try discriminate.
  inversion Hreach as [| ? r1 ? (v' & Hv' & Hr1) Hrest]; subst; [exact Hin |].
  rewrite (target_found _ _ _ _ Hb Hv) in Hv'. injection Hv' as <-.
  intros Hbad.
  apply (IH _ _ _ _ Hu Hr1 Hrest). now right.
Qed.

Lemma resolved_no_cycle (top : list (string * Loaded)) (fuel : nat)
    (chain : list GitLabReference) (t t' : Loaded)
    (r0 r : GitLabReference) :
  resolve_in fuel top chain t = Resolved t' ->
  r0 ∈ refs_of t -> rtc (points_to top) r0 r ->
  ~ tc (points_to top) r r.
Proof.
  revert chain t t' r0.
  induction fuel as [| fuel IH]; intros chain t t' r0; simpl; [discriminate |].
  intros Hw Hr0 Hreach Hloop.
  destruct (walk_resolved_refs _ _ _ _ Hw Hr0) as [u Hu].
  at_reference r0 chain top Hin Hb Hv; try discriminate.
  pose proof (target_found _ _ _ _ Hb Hv) as Ht.
  inversion Hreach as [| ? r1 ? (v' & Hv' & Hr1) Hrest]; subst.
  - assert (Hstep : exists r1, points_to top r r1 /\ rtc (points_to top) r1 r).
    { inversion Hloop as [? ? H1 | ? y ? H1 H2]; subst.
      - exists r. split; [exact H1 | constructor].
      - exists y. split; [exact H1 | now apply tc_rtc]. }
    destruct Hstep as (r1 & (v' & Hv' & Hr1) & Hback).
    rewrite Ht in Hv'. injection Hv' as <-.
    apply (resolved_off_chain _ _ _ _ _ _ _ Hu Hr1 Hback). now left.
  - rewrite Ht in Hv'. injection Hv' as <-.
    exact (IH _ _ _ _ Hu Hr1 Hrest Hloop).
Qed.

Lemma resolved_targets (top : list (string * Loaded)) (fuel : nat)
    (chain : list GitLabReference) (t t' : Loaded) (r : GitLabReference) :
  resolve_in fuel top chain t = Resolved t' ->
  r ∈ refs_of t -> is_Some (target top r).
Proof.
  destruct fuel as [| fuel]; simpl; [discriminate |].
  intros Hw Hr.
  destruct (walk_resolved_refs _ _ _ _ Hw Hr) as [u Hu].
  at_reference r chain top Hin Hb Hv; try discriminate.
  rewrite (target_found _ _ _ _ Hb Hv). eauto.
Qed.

Lemma resolved_targets_present (doc t' : Loaded) :
  resolve_references doc = Resolved t' -> targets_present doc.
Proof.
  intros Hres r Hr. exact (resolved_targets _ _ _ _ _ _ Hres Hr).
Qed.

Lemma resolved_acyclic (doc t' : Loaded) :
  resolve_references doc = Resolved t' -> ~ has_cycle doc.
Proof.
  intros Hres (r0 & r & Hr0 & Hreach & Hloop).
  exact (resolved_no_cycle _ _ _ _ _ _ _ Hres Hr0 Hreach Hloop).
Qed.

Lemma unknown_in_doc (doc : Loaded) (e : ReferenceError) :
  resolve_references doc = Failed e ->
  match e with
  | UnknownBlock r =>
      assoc (block_name r) (top_level doc) = None /\
      target (top_level doc) r = None /\ r ∈ refs_of doc
  | UnknownField r =>
      is_Some (assoc (block_name r) (top_level doc)) /\
      target (top_level doc) r = None /\ r ∈ refs_of doc
  | CircularReference _ => True
  end.
Proof.
  intros Hres. apply resolve_in_unknown in Hres.
  destruct e as [r | r |]; [| | exact I].
  - destruct Hres as (Hnone & r0 & Hr0 & Hreach).
    split; [exact Hnone |]. split; [unfold target; now rewrite Hnone |].
    exact (reach_in_doc _ _ _ Hreach Hr0).
  - destruct Hres as ((block & Hb & Hnone) & r0 & Hr0 & Hreach).
    split; [rewrite Hb; eauto |].
    split; [unfold target; now rewrite Hb |].
    exact (reach_in_doc _ _ _ Hreach Hr0).
Qed.

(** With every target in place, an error can only be a circular
    reference. *)
Lemma present_fails_circular (doc : Loaded) (e : ReferenceError) :
  targets_present doc -> resolve_references doc = Failed e ->
  exists cycle, e = CircularReference cycle.
Proof.
  intros Hpresent Hres. apply unknown_in_doc in Hres.
  destruct e as [r | r | cycle]; [| | eauto].
  - destruct Hres as (_ & Hnone & Hr). apply Hpresent in Hr as [v Hv].
    congruence.
  - destruct Hres as (_ & Hnone & Hr). apply Hpresent in Hr as [v Hv].
    congruence.
Qed.

Lemma resolves_iff (doc : Loaded) :
  (exists t', resolve_references doc = Resolved t') <->
  targets_present doc /\ ~ has_cycle doc.
Proof.
  split.
  - intros [t' Hres]. split.
    + exact (resolved_targets_present _ _ Hres).
    + exact (resolved_acyclic _ _ Hres).
  - intros [Hpresent Hacyclic].
    pose proof (resolve_references_finishes doc) as Hfin.
    destruct (resolve_references doc) as [t' | e |] eqn:Hres;
      [eauto | | congruence].
    destruct (present_fails_circular _ _ Hpresent Hres) as [cycle ->].
    destruct Hacyclic. now apply circular_has_cycle in Hres.
Qed.

Lemma cycle_refused (doc : Loaded) :
  has_cycle doc ->
  exists e, resolve_references doc = Failed e /\
    (targets_present doc -> exists cycle, e = CircularReference cycle).
Proof.
  intros Hcycle.
  pose proof (resolve_references_finishes doc) as Hfin.
  destruct (resolve_references doc) as [t' | e |] eqn:Hres; [| | congruence].
  - destruct (resolved_acyclic _ _ Hres Hcycle).
  - exists e. split; [reflexivity |].
    intros Hpresent. exact (present_fails_circular _ _ Hpresent Hres).
Qed.

(** C9: eager resolution gives an answer on every tree.  The walk never
    runs out of its unfolding budget and a larger budget gives the same
    answer, so a load with [resolve_refs] on ends in a tree or in a
    reference error.  A tree that comes out holds no reference tag and is
    the expansion of the document, of which there is one at most: every
    reference replaced by the expansion of the value it points at, spliced
    into a sequence where it stood as an item.  A circular reference error
    names the chain that was followed: it starts at a reference of the
    document, each reference points to the next, and the last one is the
    first repeat; the document then has a reference cycle.  An unknown
    block or field error names a reference of the document whose target
    is missing.  A document resolves exactly when every target is there
    and no cycle is reached; a reachable cycle is always refused, with a
    circular reference error when every target is there.  The chain
    A -> B -> C -> A and a cycle of five are refused with their chains,
    the chain A -> B -> C ending in a literal list is expanded at every
    step, and a reference standing as the one item of a sequence gives the
    items of the list it points at. *)
Theorem resolution_terminates :
  (forall doc, resolve_references doc <> OutOfFuel) /\
  (forall doc extra,
     resolve_in (S (length (refs_of doc)) + extra) (top_level doc) [] doc
     = resolve_references doc) /\
  (forall (text : Type) (parse_tree : text -> option RawNode) source,
     load parse_tree source true <> Err Unfinished) /\
  (forall doc t,
     resolve_references doc = Resolved t ->
     ref_free t /\ expands (top_level doc) doc t) /\
  (forall top t a b, expands top t a -> expands top t b -> a = b) /\
  (forall doc cycle,
     resolve_references doc = Failed (CircularReference cycle) ->
     (exists r before,
        cycle = (before ++ [r])%list /\ r ∈ before /\ NoDup before) /\
     follows (top_level doc) cycle /\
     (exists r0 tail, cycle = r0 :: tail /\ r0 ∈ refs_of doc) /\
     has_cycle doc) /\
  (forall doc r,
     resolve_references doc = Failed (UnknownBlock r) ->
     assoc (block_name r) (top_level doc) = None /\
     target (top_level doc) r = None /\ r ∈ refs_of doc) /\
  (forall doc r,
     resolve_references doc = Failed (UnknownField r) ->
     is_Some (assoc (block_name r) (top_level doc)) /\
     target (top_level doc) r = None /\ r ∈ refs_of doc) /\
  (forall doc,
     (exists t, resolve_references doc = Resolved t) <->
     targets_present doc /\ ~ has_cycle doc) /\
  (forall doc,
     has_cycle doc ->
     exists e, resolve_references doc = Failed e /\
       (targets_present doc -> exists cycle, e = CircularReference cycle)) /\
  resolve_references cyclic_doc = Failed (CircularReference abc_cycle) /\
  resolve_references five_cycle_doc = Failed (CircularReference five_cycle) /\
  resolve_references chained_doc = Resolved chained_doc_resolved /\
  resolve_references setup_doc = Resolved setup_doc_resolved.
Proof.
  split; [exact resolve_references_finishes |].
  split.
  { intros doc extra. apply resolve_in_more_fuel.
    apply resolve_references_finishes. }
  split.
  { intros text parse_tree source. unfold load.
    destruct (parse_tree source) as [raw|]; [| discriminate].
    destruct (to_placeholders raw) as [t|]; [| discriminate].
    pose proof (resolve_references_finishes t) as Hfin.
    destruct (resolve_references t); congruence. }
  split.
  { intros doc t Hres. split.
    - exact (resolve_in_ref_free _ _ _ _ _ Hres).
    - exact (resolve_in_expands _ _ _ _ _ Hres). }
  split.
  { intros top t a b Ha Hb. exact (expands_functional top t a Ha b Hb). }
  split; [exact circular_has_cycle |].
  split.
  { intros doc r Hres. exact (unknown_in_doc doc (UnknownBlock r) Hres). }
  split.
  { intros doc r Hres. exact (unknown_in_doc doc (UnknownField r) Hres). }
  split; [exact resolves_iff |].
  split; [exact cycle_refused |].
  repeat split; vm_compute; reflexivity.
Qed.

Lemma resolution_terminates_witness :
  expands (top_level setup_doc) setup_doc setup_doc_resolved /\
  has_cycle five_cycle_doc.
Proof.
  destruct resolution_terminates
    as (_ & _ & _ & Hout & _ & Hcycle & _ & _ & _ & _ & _ & Hfive & _ & Hsetup).
  split.
  - exact (proj2 (Hout setup_doc setup_doc_resolved Hsetup)).
  - exact (proj2 (proj2 (proj2 (Hcycle five_cycle_doc five_cycle Hfive)))).
Defined.

End ReferenceFacts.

(** ** More on parallel.py *)

Module ParallelShapeFacts.
Import Parallel ParallelShapes.

Lemma check_entries_pass (idx : Z) (v : list PyVal) :
  check_entries idx v = None <->
  Forall (fun entry => is_nonempty_dict entry = true) v.
Proof.
  revert idx. induction v as [| entry rest IH]; intros idx; simpl.
  - split; [constructor | reflexivity].
  - rewrite Forall_cons. unfold is_nonempty_dict at 1.
    destruct (isinstance_dict entry); simpl; [| split; [discriminate | intros []; discriminate]].
    destruct (dict_is_empty entry); simpl; [split; [discriminate | intros []; discriminate] |].
    rewrite IH. tauto.
Qed.

Lemma check_entries_first (idx : Z) (good : list PyVal) (bad : PyVal)
    (rest : list PyVal) :
  Forall (fun entry => is_nonempty_dict entry = true) good ->
  is_nonempty_dict bad = false ->
  check_entries idx (good ++ bad :: rest)
  = Some (entry_message (idx + Z.of_nat (length good)) bad).
Proof.
  intros Hgood Hbad. revert idx.
  induction Hgood as [| entry good Hentry Hgood IH]; intros idx.
  - simpl. rewrite Z.add_0_r. unfold is_nonempty_dict in Hbad.
    unfold entry_message.
    destruct (isinstance_dict bad); simpl in *; [| reflexivity].
    apply negb_false_iff in Hbad. now rewrite Hbad.
  - simpl app. simpl check_entries. unfold is_nonempty_dict in Hentry.
    apply andb_true_iff in Hentry as [Hd He].
    apply negb_true_iff in He. rewrite Hd, He. simpl.
    rewrite IH. f_equal. f_equal. lia.
Qed.

Lemma first_bad_entry (v : list PyVal) :
  Forall (fun entry => is_nonempty_dict entry = true) v \/
  exists good bad rest,
    v = (good ++ bad :: rest)%list /\
    Forall (fun entry => is_nonempty_dict entry = true) good /\
    is_nonempty_dict bad = false.
Proof.
  induction v as [| entry v IH]; [left; constructor |].
  destruct (is_nonempty_dict entry) eqn:He.
  - destruct IH as [Hall | (good & bad & rest & -> & Hgood & Hbad)].
    + left. now constructor.
    + right. exists (entry :: good), bad, rest. repeat split; auto.
  - right. exists [], entry, v. repeat split; auto.
Qed.

(** X1: [GitLabCIParallelMatrix.validate_matrix] returns a list exactly
    when the list is not empty and every entry is a dictionary that is not
    empty, and what it returns is the list it was given. *)
Theorem matrix_validator_accepts_iff (v v' : list PyVal) :
  GitLabCIParallelMatrix_validate_matrix v = Ok v' <->
  v' = v /\ v <> [] /\ Forall (fun entry => is_nonempty_dict entry = true) v.
Proof.
  unfold GitLabCIParallelMatrix_validate_matrix.
  destruct v as [| entry rest]; [split; [discriminate | intros (_ & H & _); congruence] |].
  destruct (check_entries 0 (entry :: rest)) as [msg|] eqn:Hc.
  - split; [discriminate |]. intros (_ & _ & Hall).
    apply (proj2 (check_entries_pass 0 _)) in Hall. rewrite Hall in Hc.
    discriminate.
  - apply (proj1 (check_entries_pass 0 _)) in Hc. split.
    + intros [= <-]. repeat split; auto; discriminate.
    + intros (-> & _ & _). reflexivity.
Qed.

(** X2: [GitLabCIParallelMatrix.validate_matrix] raises either "Matrix
    cannot be empty", on the empty list, or the message of the first entry
    that is not a non-empty dictionary: it carries that entry's index, and
    says "must be a dictionary" or "cannot be empty" after what the entry
    is.  Later entries play no part. *)
Theorem matrix_validator_refuses_iff (v : list PyVal) (msg : fstring) :
  GitLabCIParallelMatrix_validate_matrix v = Err msg <->
  (v = [] /\ msg = [Lit "Matrix cannot be empty"]) \/
  (exists good bad rest,
     v = (good ++ bad :: rest)%list /\
     Forall (fun entry => is_nonempty_dict entry = true) good /\
     is_nonempty_dict bad = false /\
     msg = entry_message (Z.of_nat (length good)) bad).
Proof.
  split.
  - unfold GitLabCIParallelMatrix_validate_matrix.
    destruct v as [| entry rest]; [intros [= <-]; now left |].
    destruct (first_bad_entry (entry :: rest))
      as [Hall | (good & bad & tail & Hv & Hgood & Hbad)].
    + apply (proj2 (check_entries_pass 0 _)) in Hall. rewrite Hall.
      discriminate.
    + rewrite Hv, (check_entries_first 0 good bad tail Hgood Hbad).
      intros [= <-]. right. exists good, bad, tail. repeat split; auto.
  - intros [[-> ->] | (good & bad & rest & -> & Hgood & Hbad & ->)];
      [reflexivity |].
    unfold GitLabCIParallelMatrix_validate_matrix.
    rewrite (check_entries_first 0 good bad rest Hgood Hbad).
    now destruct good.
Qed.

Lemma conforms_dimension (v : PyVal) :
  conforms (TUnion TStr (TList TStr)) v = dimension_value v.
Proof. destruct v; reflexivity. Qed.

Lemma conforms_entry (entry : PyVal) :
  conforms matrix_entry_annotation entry = true <-> dimension_map entry.
Proof.
  unfold dimension_map. destruct entry as [| | | | | | entries];
    try (split; [discriminate | intros (m & [=] & _)]).
  change (conforms matrix_entry_annotation (PyDict entries))
    with (forallb (fun kv : string * PyVal =>
                     conforms (TUnion TStr (TList TStr)) kv.2)
            (map_to_list entries)).
  rewrite forallb_forall. split.
  - intros Hall. exists entries. split; [reflexivity |].
    intros k v Hk. rewrite <- conforms_dimension.
    apply (Hall (k, v)). now apply list_elem_of_In, elem_of_map_to_list.
  - intros (m & [= <-] & Hall) [k v] Hkv.
    change (conforms (TUnion TStr (TList TStr)) v = true).
    rewrite conforms_dimension. apply (Hall k).
    now apply elem_of_map_to_list, list_elem_of_In.
Qed.

Lemma conforms_matrix (l : list PyVal) :
  conforms matrix_annotation (PyList l) = true <-> Forall dimension_map l.
Proof.
  change (conforms matrix_annotation (PyList l))
    with (forallb (conforms matrix_entry_annotation) l).
  rewrite forallb_forall, Forall_forall. split; intros H x Hx.
  - apply conforms_entry, H. now apply list_elem_of_In.
  - apply conforms_entry, H. now apply list_elem_of_In.
Qed.

Lemma as_matrix_Some (v : PyVal) (l : list PyVal) :
  as_matrix v = Some l <-> v = PyList l /\ Forall dimension_map l.
Proof.
  destruct v as [| | | | | items |];
    try (split; [discriminate | intros [[=] _]]).
  unfold as_matrix.
  destruct (conforms matrix_annotation (PyList items)) eqn:Hc.
  - apply conforms_matrix in Hc. split.
    + intros [= <-]. auto.
    + intros [[= <-] _]. reflexivity.
  - split; [discriminate |]. intros [[= <-] Hall].
    apply conforms_matrix in Hall. congruence.
Qed.

Lemma as_matrix_None (v : PyVal) :
  as_matrix v = None <-> forall l, v = PyList l -> ~ Forall dimension_map l.
Proof.
  destruct (as_matrix v) as [l|] eqn:Hv.
  - apply as_matrix_Some in Hv as [-> Hall].
    split; [discriminate |]. intros H. now destruct (H l eq_refl).
  - split; [| reflexivity]. intros _ l -> Hall.
    assert (as_matrix (PyList l) = Some l) by now apply as_matrix_Some.
    congruence.
Qed.

Lemma dimension_map_is_dict (entry : PyVal) :
  dimension_map entry -> isinstance_dict entry = true.
Proof. now intros (m & -> & _). Qed.

Lemma flat_map_nil {A B} (f : A -> list B) (l : list A) :
  flat_map f l = [] <-> Forall (fun x => f x = []) l.
Proof.
  induction l as [| x l IH]; simpl.
  - split; [constructor | reflexivity].
  - rewrite Forall_cons, <- IH. split.
    + intros H. now apply app_eq_nil in H.
    + intros [-> ->]. reflexivity.
Qed.

Lemma indexed_lines_nil (f : list loc_item -> PyVal -> list line_error)
    (g : PyVal -> bool) (loc : list loc_item) (items : list PyVal) (i : Z) :
  (forall loc' x, f loc' x = [] <-> g x = true) ->
  flat_map (fun ix => f (loc ++ [LIndex ix.1])%list ix.2) (indexed i items)
  = []
  <-> forallb g items = true.
Proof.
  intros Hfg. revert i. induction items as [| x items IH]; intros i; simpl.
  - split; reflexivity.
  - rewrite andb_true_iff, <- (IH (i + 1)),
      <- (Hfg (loc ++ [LIndex i])%list x).
    split.
    + intros H. now apply app_eq_nil in H.
    + intros [-> ->]. reflexivity.
Qed.

(** The library reports no type entry exactly for a value of the declared
    type. *)
Lemma type_lines_nil (t : annotation) (loc : list loc_item) (v : PyVal) :
  type_lines t loc v = [] <-> conforms t v = true.
Proof.
  revert loc v. induction t as [| item IH | value IH | l IHl r IHr];
    intros loc v; simpl.
  - destruct (isinstance_str v); split; congruence.
  - destruct v as [| | | | | items |]; try (split; discriminate).
    apply indexed_lines_nil. exact IH.
  - destruct v as [| | | | | | entries]; try (split; discriminate).
    rewrite flat_map_nil, forallb_forall, Forall_forall. split.
    + intros H kv Hkv.
      apply (proj1 (IH (loc ++ [LName kv.1])%list kv.2)).
      apply H. now apply list_elem_of_In.
    + intros H kv Hkv. apply IH. apply H. now apply list_elem_of_In.
  - destruct (conforms l v || conforms r v) eqn:Hc; [split; reflexivity |].
    split; [| discriminate]. intros H. apply app_eq_nil in H as [Hl _].
    apply IHl in Hl. rewrite Hl in Hc. discriminate.
Qed.

(** Every type entry lies under the location the check started from. *)
Lemma type_lines_located (t : annotation) (loc : list loc_item) (v : PyVal) :
  Forall (fun line => exists rest expected,
            line = TypeLine (loc ++ rest)%list expected)
    (type_lines t loc v).
Proof.
  revert loc v. induction t as [| item IH | value IH | l IHl r IHr];
    intros loc v; simpl.
  - destruct (isinstance_str v); repeat constructor.
    exists [], "string_type". now rewrite app_nil_r.
  - destruct v as [| | | | | items |];
      try (repeat constructor; exists [], "list_type"; now rewrite app_nil_r).
    apply Forall_forall. intros line Hline.
    apply list_elem_of_In, in_flat_map in Hline as ([i x] & _ & Hline).
    apply list_elem_of_In in Hline.
    destruct (proj1 (Forall_forall _ _) (IH (loc ++ [LIndex i])%list x) line Hline)
      as (rest & expected & ->).
    exists (LIndex i :: rest), expected. now rewrite <- app_assoc.
  - destruct v as [| | | | | | entries];
      try (repeat constructor; exists [], "dict_type"; now rewrite app_nil_r).
    apply Forall_forall. intros line Hline.
    apply list_elem_of_In, in_flat_map in Hline as ([k x] & _ & Hline).
    apply list_elem_of_In in Hline.
    destruct (proj1 (Forall_forall _ _) (IH (loc ++ [LName k])%list x) line Hline)
      as (rest & expected & ->).
    exists (LName k :: rest), expected. now rewrite <- app_assoc.
  - destruct (conforms l v || conforms r v); [constructor |].
    apply Forall_app. split.
    + eapply Forall_impl; [apply IHl |].
      intros line (rest & expected & ->).
      exists (LName (label l) :: rest), expected. now rewrite <- app_assoc.
    + eapply Forall_impl; [apply IHr |].
      intros line (rest & expected & ->).
      exists (LName (label r) :: rest), expected. now rewrite <- app_assoc.
Qed.

Lemma as_matrix_type_lines (v : PyVal) :
  as_matrix v = None ->
  type_lines matrix_annotation [LName "matrix"] v <> [].
Proof.
  intros Hv Hnil. apply type_lines_nil in Hnil.
  destruct v as [| | | | | items |]; try discriminate.
  unfold as_matrix in Hv. rewrite Hnil in Hv. discriminate.
Qed.

Lemma type_line_not_value (t : annotation) (loc : list loc_item) (v : PyVal)
    (field : string) (msg : fstring) :
  ValueErr field msg ∉ type_lines t loc v.
Proof.
  intros Hin.
  destruct (proj1 (Forall_forall _ _) (type_lines_located t loc v) _ Hin)
    as (rest & expected & [=]).
Qed.



(** X4: [GitLabCIParallelMatrix] is the stricter of the two models.
    Arguments it accepts are accepted by [GitLabCIParallelObject] with the
    same matrix; arguments [GitLabCIParallelObject] accepts are accepted by
    it exactly when no entry of the matrix is an empty dictionary. *)
Theorem matrix_stricter_than_object (kwargs : gmap string PyVal) :
  (forall m, GitLabCIParallelMatrix_init kwargs = Ok m ->
     GitLabCIParallelObject_init kwargs
     = Ok {| matrix := pm_matrix m; model_extra := pm_model_extra m |}) /\
  (forall o, GitLabCIParallelObject_init kwargs = Ok o ->
     (GitLabCIParallelMatrix_init kwargs
      = Ok {| pm_matrix := matrix o; pm_model_extra := model_extra o |}
      <-> Forall (fun entry => dict_is_empty entry = false) (matrix o))).
Proof.
  unfold GitLabCIParallelMatrix_init, GitLabCIParallelObject_init, construct.
  destruct (kwargs !! "matrix") as [v|]; [| split; intros ?; discriminate].
  destruct (as_matrix v) as [l|] eqn:Hv; [| split; intros ?; discriminate].
  apply as_matrix_Some in Hv as [-> Hall].
  assert (Hdicts : Forall (fun entry => isinstance_dict entry = true) l)
    by (eapply Forall_impl; [exact Hall | exact dimension_map_is_dict]).
  split.
  - intros m.
    destruct (GitLabCIParallelMatrix_validate_matrix l) as [l'|msg] eqn:Hval;
      [| discriminate].
    apply matrix_validator_accepts_iff in Hval as (-> & Hne & _).
    intros [= <-]. simpl. now destruct l.
  - intros o. destruct l as [| entry rest]; [discriminate |].
    remember (GitLabCIParallelMatrix_validate_matrix (entry :: rest))
      as val eqn:Hval.
    simpl. intros [= <-]. simpl. symmetry in Hval. split.
    + destruct val as [l'|msg]; [| discriminate].
      apply matrix_validator_accepts_iff in Hval as (_ & _ & Hok).
      intros _. eapply Forall_impl; [exact Hok |].
      intros x Hx. unfold is_nonempty_dict in Hx.
      apply andb_true_iff in Hx as [_ Hx]. now apply negb_true_iff.
    + intros Hnonempty.
      assert (Hok : GitLabCIParallelMatrix_validate_matrix (entry :: rest)
                    = Ok (entry :: rest)).
      { apply matrix_validator_accepts_iff. repeat split; [discriminate |].
        apply Forall_forall. intros x Hx. unfold is_nonempty_dict.
        rewrite (proj1 (Forall_forall _ _) Hdicts x Hx).
        rewrite (proj1 (Forall_forall _ _) Hnonempty x Hx). reflexivity. }
      rewrite Hok in Hval. subst val. reflexivity.
Qed.

(** X5: [parse_parallel] returns a value exactly for an integer from 2 to
    200 that is not a boolean, and for a mapping whose [matrix] is a
    non-empty list of dictionaries, each value of which is a string or a
    list of strings.  Everything else is refused. *)
Theorem parse_parallel_accepts_iff (value : PyVal) :
  is_ok (parse_parallel value) = true <->
  (exists n, value = PyInt n /\ 2 <= n <= 200) \/
  (exists kwargs l,
     value = PyDict kwargs /\ kwargs !! "matrix" = Some (PyList l) /\
     l <> [] /\ Forall dimension_map l).
Proof.
  split.
  - destruct value as [| b | n | bits | s | items | kwargs];
      try discriminate.
    + destruct b; discriminate.
    + unfold parse_parallel. simpl.
      destruct (Z.ltb_spec n 2), (Z.gtb_spec n 200); simpl;
        try discriminate.
      intros _. left. exists n. split; [reflexivity | lia].
    + unfold parse_parallel. simpl.
      unfold GitLabCIParallelObject_init, construct.
      destruct (kwargs !! "matrix") as [v|] eqn:Hk; [| discriminate].
      destruct (as_matrix v) as [l|] eqn:Hv; [| discriminate].
      apply as_matrix_Some in Hv as [-> Hall].
      destruct l as [| entry rest]; [discriminate |].
      intros _. right. exists kwargs, (entry :: rest).
      repeat split; auto; discriminate.
  - intros [(n & -> & Hn) | (kwargs & l & -> & Hk & Hne & Hall)].
    + unfold parse_parallel. simpl.
      destruct (Z.ltb_spec n 2), (Z.gtb_spec n 200); simpl;
        first [reflexivity | lia].
    + unfold parse_parallel. simpl.
      unfold GitLabCIParallelObject_init, construct.
      rewrite Hk. rewrite (proj2 (as_matrix_Some (PyList l) l)) by auto.
      destruct l; [congruence | reflexivity].
Qed.



End ParallelShapeFacts.

(** ** Normalisation of loaded data *)

Module NormalizeFacts.
Import Normalize.

Lemma py_size_lookup (entries : gmap string PyVal) (k : string) (v : PyVal) :
  entries !! k = Some v -> (py_size v < py_size (PyDict entries))%nat.
Proof.
  intros Hk. simpl.
  rewrite (map_fold_delete_L _ _ k v entries); [lia | | exact Hk].
  intros. lia.
Qed.

Lemma py_size_item (items : list PyVal) (v : PyVal) :
  v ∈ items -> (py_size v < py_size (PyList items))%nat.
Proof.
  simpl. induction 1 as [x l | x y l Hin IH]; simpl; lia.
Qed.

(** Induction over a value reaches the items of a list and the values of a
    mapping. *)
Lemma PyVal_nested_ind (P : PyVal -> Prop) :
  P PyNone ->
  (forall b, P (PyBool b)) ->
  (forall n, P (PyInt n)) ->
  (forall bits, P (PyFloat bits)) ->
  (forall s, P (PyStr s)) ->
  (forall items, Forall P items -> P (PyList items)) ->
  (forall entries, map_Forall (fun _ v => P v) entries -> P (PyDict entries)) ->
  forall v, P v.
Proof.
  intros Hnone Hbool Hint Hfloat Hstr Hlist Hdict v.
  induction (Nat.lt_wf_0_projected py_size v) as [v _ IH].
  destruct v as [| b | n | bits | s | items | entries]; auto.
  - apply Hlist, Forall_forall. intros x Hx. apply IH, py_size_item, Hx.
  - apply Hdict. intros k x Hk. apply IH, (py_size_lookup entries k), Hk.
Qed.

Lemma is_none_true (v : PyVal) : is_none v = true <-> v = PyNone.
Proof. destruct v; simpl; split; congruence. Qed.

Lemma is_none_false (v : PyVal) : is_none v = false <-> v <> PyNone.
Proof. destruct v; simpl; split; congruence. Qed.

Lemma no_none_values_dict (entries : gmap string PyVal) :
  no_none_values (PyDict entries) = true <->
  map_Forall (fun _ v => v <> PyNone /\ no_none_values v = true) entries.
Proof.
  simpl.
  apply (map_fold_weak_ind
           (fun r m => r = true <->
              map_Forall (fun _ v => v <> PyNone /\ no_none_values v = true) m)).
  - split; [intros _; apply map_Forall_empty | reflexivity].
  - intros k v m r Hk IH. rewrite map_Forall_insert by exact Hk.
    rewrite !andb_true_iff, negb_true_iff, is_none_false, IH. tauto.
Qed.

Lemma no_none_values_list (items : list PyVal) :
  no_none_values (PyList items) = true <->
  Forall (fun v => no_none_values v = true) items.
Proof.
  simpl. rewrite forallb_forall, Forall_forall.
  split; intros H x Hx; apply H; now apply list_elem_of_In.
Qed.

Lemma normalize_lookup (entries : gmap string PyVal) (k : string) :
  omap (fun v => if is_none v then None else Some (normalize_yaml_data v))
    entries !! k =
  match entries !! k with
  | Some v => if is_none v then None else Some (normalize_yaml_data v)
  | None => None
  end.
Proof. rewrite lookup_omap. now destruct (entries !! k). Qed.

Lemma normalize_not_none (v : PyVal) :
  v <> PyNone -> normalize_yaml_data v <> PyNone.
Proof. destruct v; simpl; congruence. Qed.

(** X7: what [normalize_yaml_data] returns has no mapping, at any depth,
    with [None] as a value. *)
Theorem normalize_no_none_values (data : PyVal) :
  no_none_values (normalize_yaml_data data) = true.
Proof.
  induction data as [| b | n | bits | s | items IH | entries IH]
    using PyVal_nested_ind; try reflexivity.
  - simpl normalize_yaml_data. apply no_none_values_list.
    apply Forall_fmap. exact IH.
  - simpl normalize_yaml_data. apply no_none_values_dict.
    intros k w Hk. rewrite normalize_lookup in Hk.
    destruct (entries !! k) as [v|] eqn:Hv; [| discriminate].
    destruct (is_none v) eqn:Hn; [discriminate |].
    injection Hk as <-. split.
    + apply normalize_not_none, is_none_false, Hn.
    + exact (IH k v Hv).
Qed.

(** X8: [normalize_yaml_data] leaves a value unchanged exactly when no
    mapping in it has [None] as a value. *)
Theorem normalize_fixed_iff (data : PyVal) :
  normalize_yaml_data data = data <-> no_none_values data = true.
Proof.
  split.
  - intros <-. apply normalize_no_none_values.
  - induction data as [| b | n | bits | s | items IH | entries IH]
      using PyVal_nested_ind; try reflexivity.
    + intros Hfree. apply no_none_values_list in Hfree.
      simpl. f_equal.
      induction Hfree as [| x l Hx Hl IHl]; [reflexivity |].
      apply Forall_cons in IH as [IHx IHl'].
      simpl. f_equal; auto.
    + intros Hfree. apply no_none_values_dict in Hfree.
      simpl. f_equal. apply map_eq. intros k. rewrite normalize_lookup.
      destruct (entries !! k) as [v|] eqn:Hv; [| reflexivity].
      destruct (Hfree k v Hv) as [Hne Hv'].
      apply is_none_false in Hne. rewrite Hne.
      f_equal. exact (IH k v Hv Hv').
Qed.

(** X9: normalising twice is normalising once. *)
Theorem normalize_idempotent (data : PyVal) :
  normalize_yaml_data (normalize_yaml_data data) = normalize_yaml_data data.
Proof. apply normalize_fixed_iff, normalize_no_none_values. Qed.

(** X10: after normalisation a key set to [None] and a key that is absent
    are not told apart. *)
Theorem normalize_none_is_absent (entries : gmap string PyVal) (k : string) :
  normalize_yaml_data (PyDict (<[k := PyNone]> entries))
  = normalize_yaml_data (PyDict (delete k entries)).
Proof.
  simpl. f_equal. apply map_eq. intros i. rewrite !normalize_lookup.
  destruct (decide (k = i)) as [<-|Hne].
  - now rewrite lookup_insert_eq, lookup_delete_eq.
  - now rewrite lookup_insert_ne, lookup_delete_ne.
Qed.

End NormalizeFacts.
